(** * LINQ-style lazy enumerators (include/linq.hpp)

    A shallow embedding of the pull-based cursors of [namespace linq::impl]:
    the abstract [enumerator<T>] interface, the source cursor
    [range_enumerator] and the decorators [take_enumerator],
    [drop_enumerator], [select_enumerator], [until_enumerator] and
    [where_enumerator], together with the collector [to_vector].

    Every decorator holds a reference [parent_] to its upstream cursor and
    pulls through it.  The chains built by the combinators are linear, so
    the state of a decorator carries the state of its upstream: what the
    caller's upstream object looks like after an operation is the
    [parent_] field of the resulting state. *)

From Stdlib Require Import List ZArith Bool Arith Lia.
Import ListNotations.

Set Implicit Arguments.
Generalizable All Variables.

(** ** Outcomes

    An operation either returns, runs into behaviour that C++ leaves
    undefined (dereferencing or incrementing a past-the-end iterator,
    reading an indeterminate member, signed overflow), or exhausts the
    bound put on its loops. *)

Inductive outcome (A : Type) : Type :=
| Done (a : A)
| Undefined
| OutOfFuel.

Arguments Done {A} a.
Arguments Undefined {A}.
Arguments OutOfFuel {A}.

Definition bind {A B : Type} (m : outcome A) (k : A -> outcome B) : outcome B :=
  match m with
  | Done a => k a
  | Undefined => Undefined
  | OutOfFuel => OutOfFuel
  end.

Declare Scope outcome_scope.
Delimit Scope outcome_scope with outcome.
Notation "x <- m ;; k" := (bind m (fun x => k))
  (at level 61, m at next level, right associativity) : outcome_scope.
Notation "' p <- m ;; k" := (bind m (fun p => k))
  (at level 61, p pattern, m at next level, right associativity) : outcome_scope.
Open Scope outcome_scope.

(** ** Function objects

    The template parameter [F] of select, until and where is any callable;
    calling it may change the object ([func_] is a member, called through a
    non-const path). *)

Class Callable (F A B : Type) : Type :=
  { call : F -> A -> B * F }.

(** A plain function: calling it leaves it as it is. *)
#[export] Instance function_Callable (A B : Type) : Callable (A -> B) A B :=
  { call f x := (f x, f) }.

(** A function object that counts its own invocations. *)
Record counted (A B : Type) : Type :=
  { cnt_fun : A -> B; calls : nat }.

#[export] Instance counted_Callable (A B : Type) : Callable (counted A B) A B :=
  { call c x := (cnt_fun c x, {| cnt_fun := cnt_fun c; calls := S (calls c) |}) }.

(** ** The cursor interface: [enumerator<T>]

    [deref] is [operator*], [incr] is [operator++], [to_bool] is
    [operator bool].  All three may change the object (select caches in
    [operator*], until in [operator bool]).  The [nat] of [incr] bounds the
    loops an increment may run (where); a loop that needs more iterations
    ends in [OutOfFuel]. *)

Class Enumerator (T E : Type) : Type :=
  { deref : E -> outcome (T * E);
    incr : nat -> E -> outcome E;
    to_bool : E -> outcome (bool * E) }.

(** [to_vector]: while the cursor converts to true, push its current
    element onto [result] and increment it.  [gas] bounds the iterations of
    the loop, after the loop condition has been found true; [fuel] is
    handed to the increments. *)
Fixpoint to_vector_loop `{Enumerator T E} (gas fuel : nat) (e : E) (result : list T)
  : outcome (list T * E) :=
  '(b, e1) <- to_bool e ;;
  if b then
    match gas with
    | O => OutOfFuel
    | S gas' =>
        '(x, e2) <- deref e1 ;;
        e3 <- incr fuel e2 ;;
        to_vector_loop gas' fuel e3 (result ++ [x])
    end
  else Done (result, e1).

Definition to_vector `{Enumerator T E} (fuel : nat) (e : E) : outcome (list T * E) :=
  to_vector_loop fuel fuel e [].

(** ** [range_enumerator]

    The two iterators are positions in the caller's collection.
    Dereferencing a position that holds no element and incrementing the
    past-the-end position of the collection are undefined; the end
    position of the range may lie before the end of the collection. *)

Record range_enumerator (T : Type) : Type :=
  { coll : list T; begin_ : nat; end_ : nat }.

Definition range_deref {T} (r : range_enumerator T) : outcome (T * range_enumerator T) :=
  match nth_error (coll r) (begin_ r) with
  | Some x => Done (x, r)
  | None => Undefined
  end.

Definition range_incr {T} (r : range_enumerator T) : outcome (range_enumerator T) :=
  if begin_ r <? length (coll r)
  then Done {| coll := coll r; begin_ := S (begin_ r); end_ := end_ r |}
  else Undefined.

Definition range_to_bool {T} (r : range_enumerator T) : outcome (bool * range_enumerator T) :=
  Done (negb (begin_ r =? end_ r), r).

#[export] Instance range_Enumerator (T : Type) : Enumerator T (range_enumerator T) :=
  { deref := range_deref;
    incr := fun _ => range_incr;
    to_bool := range_to_bool }.

(** [from(begin, end)] on positions [b], [e] of [c], and on a whole collection. *)
Definition from_range {T} (c : list T) (b e : nat) : range_enumerator T :=
  {| coll := c; begin_ := b; end_ := e |}.

Definition from {T} (c : list T) : range_enumerator T :=
  from_range c 0 (length c).

(** ** [take_enumerator] *)

Definition INT_MIN : Z := (- 2 ^ 31)%Z.

Record take_enumerator (E : Type) : Type :=
  { take_parent_ : E; amount_ : Z }.

Section Take.
Context `{Enumerator T E}.

Definition take (parent : E) (amount : Z) : take_enumerator E :=
  {| take_parent_ := parent; amount_ := amount |}.

Definition take_incr (fuel : nat) (t : take_enumerator E) : outcome (take_enumerator E) :=
  p <- incr fuel (take_parent_ t) ;;
  if (amount_ t =? INT_MIN)%Z then Undefined
  else Done {| take_parent_ := p; amount_ := (amount_ t - 1)%Z |}.

Definition take_to_bool (t : take_enumerator E) : outcome (bool * take_enumerator E) :=
  if (0 <? amount_ t)%Z then
    '(b, p) <- to_bool (take_parent_ t) ;;
    Done (b, {| take_parent_ := p; amount_ := amount_ t |})
  else Done (false, t).

Definition take_deref (t : take_enumerator E) : outcome (T * take_enumerator E) :=
  '(x, p) <- deref (take_parent_ t) ;;
  Done (x, {| take_parent_ := p; amount_ := amount_ t |}).

#[export] Instance take_Enumerator : Enumerator T (take_enumerator E) :=
  { deref := take_deref; incr := take_incr; to_bool := take_to_bool }.
End Take.

(** ** [drop_enumerator] *)

Record drop_enumerator (E : Type) : Type :=
  { drop_parent_ : E }.

Section Drop.
Context `{Enumerator T E}.

(** [for (int i = 0; (i < amount) && static_cast<bool>(parent_); ++i) ++parent_;] *)
Fixpoint drop_loop (gas fuel : nat) (amount i : Z) (p : E) : outcome E :=
  if (i <? amount)%Z then
    '(b, p1) <- to_bool p ;;
    if b then
      match gas with
      | O => OutOfFuel
      | S gas' =>
          p2 <- incr fuel p1 ;;
          drop_loop gas' fuel amount (i + 1)%Z p2
      end
    else Done p1
  else Done p.

Definition drop (fuel : nat) (parent : E) (amount : Z) : outcome (drop_enumerator E) :=
  p <- drop_loop fuel fuel amount 0%Z parent ;;
  Done {| drop_parent_ := p |}.

Definition drop_incr (fuel : nat) (d : drop_enumerator E) : outcome (drop_enumerator E) :=
  p <- incr fuel (drop_parent_ d) ;;
  Done {| drop_parent_ := p |}.

Definition drop_to_bool (d : drop_enumerator E) : outcome (bool * drop_enumerator E) :=
  '(b, p) <- to_bool (drop_parent_ d) ;;
  Done (b, {| drop_parent_ := p |}).

Definition drop_deref (d : drop_enumerator E) : outcome (T * drop_enumerator E) :=
  '(x, p) <- deref (drop_parent_ d) ;;
  Done (x, {| drop_parent_ := p |}).

#[export] Instance drop_Enumerator : Enumerator T (drop_enumerator E) :=
  { deref := drop_deref; incr := drop_incr; to_bool := drop_to_bool }.
End Drop.

(** ** [select_enumerator]

    [value_] is default-initialised by the constructor; it is read only
    after [flag_] has been cleared, that is after it has been assigned. *)

Record select_enumerator (T E F : Type) : Type :=
  { select_parent_ : E; value_ : option T; select_func_ : F; select_flag_ : bool }.

Section Select.
Context `{Enumerator U E} `{Callable F U T}.

Definition select (parent : E) (func : F) : select_enumerator T E F :=
  {| select_parent_ := parent; value_ := None;
     select_func_ := func; select_flag_ := true |}.

Definition select_incr (fuel : nat) (s : select_enumerator T E F)
  : outcome (select_enumerator T E F) :=
  p <- incr fuel (select_parent_ s) ;;
  Done {| select_parent_ := p; value_ := value_ s;
          select_func_ := select_func_ s; select_flag_ := true |}.

Definition select_to_bool (s : select_enumerator T E F)
  : outcome (bool * select_enumerator T E F) :=
  '(b, p) <- to_bool (select_parent_ s) ;;
  Done (b, {| select_parent_ := p; value_ := value_ s;
              select_func_ := select_func_ s; select_flag_ := select_flag_ s |}).

Definition select_deref (s : select_enumerator T E F)
  : outcome (T * select_enumerator T E F) :=
  if select_flag_ s then
    '(u, p) <- deref (select_parent_ s) ;;
    let '(v, f) := call (select_func_ s) u in
    Done (v, {| select_parent_ := p; value_ := Some v;
                select_func_ := f; select_flag_ := false |})
  else
    match value_ s with
    | Some v => Done (v, s)
    | None => Undefined
    end.

#[export] Instance select_Enumerator : Enumerator T (select_enumerator T E F) :=
  { deref := select_deref; incr := select_incr; to_bool := select_to_bool }.
End Select.

(** ** [until_enumerator]

    The constructor initialises [flag_of_flag_] only; [flag_] is
    indeterminate until the first conversion to bool assigns it. *)

Record until_enumerator (E F : Type) : Type :=
  { until_parent_ : E; until_func_ : F;
    until_flag_ : option bool; flag_of_flag_ : bool }.

Section Until.
Context `{Enumerator T E} `{Callable F T bool}.

Definition until (parent : E) (func : F) : until_enumerator E F :=
  {| until_parent_ := parent; until_func_ := func;
     until_flag_ := None; flag_of_flag_ := false |}.

Definition until_incr (fuel : nat) (u : until_enumerator E F)
  : outcome (until_enumerator E F) :=
  p <- incr fuel (until_parent_ u) ;;
  Done {| until_parent_ := p; until_func_ := until_func_ u;
          until_flag_ := until_flag_ u; flag_of_flag_ := false |}.

Definition until_to_bool (u : until_enumerator E F)
  : outcome (bool * until_enumerator E F) :=
  '(b, p) <- to_bool (until_parent_ u) ;;
  if negb b then
    Done (false, {| until_parent_ := p; until_func_ := until_func_ u;
                    until_flag_ := until_flag_ u;
                    flag_of_flag_ := flag_of_flag_ u |})
  else if negb (flag_of_flag_ u) then
    '(x, p1) <- deref p ;;
    let '(r, f) := call (until_func_ u) x in
    Done (negb r, {| until_parent_ := p1; until_func_ := f;
                     until_flag_ := Some (negb r); flag_of_flag_ := true |})
  else
    match until_flag_ u with
    | Some fl => Done (fl, {| until_parent_ := p; until_func_ := until_func_ u;
                              until_flag_ := until_flag_ u;
                              flag_of_flag_ := flag_of_flag_ u |})
    | None => Undefined
    end.

Definition until_deref (u : until_enumerator E F)
  : outcome (T * until_enumerator E F) :=
  '(x, p) <- deref (until_parent_ u) ;;
  Done (x, {| until_parent_ := p; until_func_ := until_func_ u;
              until_flag_ := until_flag_ u; flag_of_flag_ := flag_of_flag_ u |}).

#[export] Instance until_Enumerator : Enumerator T (until_enumerator E F) :=
  { deref := until_deref; incr := until_incr; to_bool := until_to_bool }.
End Until.

(** ** [where_enumerator] *)

Record where_enumerator (E F : Type) : Type :=
  { where_parent_ : E; where_func_ : F }.

Section Where.
Context `{Enumerator T E} `{Callable F T bool}.

(** The loop shared by the constructor and the increment: while the
    upstream converts to true and [func_] rejects its current element,
    increment the upstream. *)
Fixpoint where_skip (gas fuel : nat) (p : E) (f : F) : outcome (where_enumerator E F) :=
  '(b, p1) <- to_bool p ;;
  if b then
    '(x, p2) <- deref p1 ;;
    let '(r, f1) := call f x in
    if negb r then
      match gas with
      | O => OutOfFuel
      | S gas' =>
          p3 <- incr fuel p2 ;;
          where_skip gas' fuel p3 f1
      end
    else Done {| where_parent_ := p2; where_func_ := f1 |}
  else Done {| where_parent_ := p1; where_func_ := f |}.

Definition where_ (fuel : nat) (parent : E) (func : F) : outcome (where_enumerator E F) :=
  where_skip fuel fuel parent func.

Definition where_incr (fuel : nat) (w : where_enumerator E F)
  : outcome (where_enumerator E F) :=
  p <- incr fuel (where_parent_ w) ;;
  where_skip fuel fuel p (where_func_ w).

Definition where_to_bool (w : where_enumerator E F)
  : outcome (bool * where_enumerator E F) :=
  '(b, p) <- to_bool (where_parent_ w) ;;
  Done (b, {| where_parent_ := p; where_func_ := where_func_ w |}).

Definition where_deref (w : where_enumerator E F)
  : outcome (T * where_enumerator E F) :=
  '(x, p) <- deref (where_parent_ w) ;;
  Done (x, {| where_parent_ := p; where_func_ := where_func_ w |}).

#[export] Instance where_Enumerator : Enumerator T (where_enumerator E F) :=
  { deref := where_deref; incr := where_incr; to_bool := where_to_bool }.
End Where.

(** [until_eq] and [where_neq] close over [value] and compare with the
    element type's own [==] and [!=]. *)
Class Equality (T : Type) : Type :=
  { equal : T -> T -> bool }.

#[export] Instance Z_Equality : Equality Z :=
  { equal := Z.eqb }.

Definition until_eq `{Enumerator T E} `{Equality T} (parent : E) (value : T)
  : until_enumerator E (T -> bool) :=
  until parent (fun elem => equal elem value).

Definition where_neq `{Enumerator T E} `{Equality T} (fuel : nat) (parent : E) (value : T)
  : outcome (where_enumerator E (T -> bool)) :=
  where_ fuel parent (fun elem => negb (equal elem value)).

Definition result_of {A S : Type} (o : outcome (A * S)) : option A :=
  match o with Done (a, _) => Some a | _ => None end.

Example scenario_where_select_take :
  result_of (w <- where_ 10 (from [1; 2; 3; 4; 5; 6]%Z) Z.even ;;
             to_vector 10 (take (select w (fun x => x * 10)%Z) 2))
  = Some [20; 40]%Z.
Proof. reflexivity. Qed.

Example scenario_until_eq :
  result_of (to_vector 10 (until_eq (from [1; 2; 3; 0; 4; 5]%Z) 0%Z)) = Some [1; 2; 3]%Z.
Proof. reflexivity. Qed.

Example scenario_where_neq :
  result_of (w <- where_neq 10 (from [1; 0; 2; 0]%Z) 0%Z ;; to_vector 10 w) = Some [1; 2]%Z.
Proof. reflexivity. Qed.

Example scenario_drop_take :
  result_of (d <- drop 10 (from [1; 2; 3; 4; 5]%Z) 2 ;; to_vector 10 (take d 2))
  = Some [3; 4]%Z.
Proof. reflexivity. Qed.

(** ** What a cursor presents

    A function object is _pure_ when the value it returns is that of a
    fixed function [fn], whatever calls came before. *)

Class PureCallable (F A B : Type) `{Callable F A B} : Type :=
  { fn : F -> A -> B;
    call_fst : forall c x, fst (call c x) = fn c x;
    call_snd : forall c x, fn (snd (call c x)) = fn c }.

Arguments PureCallable F A B {_}.

#[export] Instance function_Pure (A B : Type) : PureCallable (A -> B) A B :=
  { fn f := f;
    call_fst := fun _ _ => eq_refl;
    call_snd := fun _ _ => eq_refl }.

#[export] Instance counted_Pure (A B : Type) : PureCallable (counted A B) A B :=
  { fn c := cnt_fun c;
    call_fst := fun _ _ => eq_refl;
    call_snd := fun _ _ => eq_refl }.

Definition is_nil {A} (l : list A) : bool :=
  match l with [] => true | _ :: _ => false end.

(** The elements of [l] before the first one that [p] accepts. *)
Fixpoint before_first {A} (p : A -> bool) (l : list A) : list A :=
  match l with
  | [] => []
  | x :: r => if p x then [] else x :: before_first p r
  end.

(** [l] from the first element that [p] accepts. *)
Fixpoint from_first {A} (p : A -> bool) (l : list A) : list A :=
  match l with
  | [] => []
  | x :: r => if p x then l else from_first p r
  end.

(** The head is kept as it is, the rest is transformed by [g]. *)
Definition keep_head {A} (g : list A -> list A) (l : list A) : list A :=
  match l with
  | [] => []
  | x :: r => x :: g r
  end.

(** A cursor is _lawful_ when its states [e] that satisfy [wf] present a
    list [denote e] under the pull protocol (convert to bool, dereference
    and increment only a cursor that converted to true):
    the conversion tells whether the list is empty, dereferencing returns
    its head, both leave the list as it is, and incrementing moves to its
    tail.  [need e] is a number of loop iterations that suffices for every
    loop run on behalf of [e]. *)

Class Lawful (T E : Type) `{Enumerator T E} : Type :=
  { wf : E -> Prop;
    denote : E -> list T;
    need : E -> nat;
    need_denote : forall e, wf e -> length (denote e) < need e;
    to_bool_law : forall e, wf e ->
      exists e', to_bool e = Done (negb (is_nil (denote e)), e')
                 /\ wf e' /\ denote e' = denote e /\ need e' <= need e;
    deref_law : forall e x r, wf e -> denote e = x :: r ->
      exists e', deref e = Done (x, e');
    deref_keep : forall e v e', wf e -> deref e = Done (v, e') ->
      wf e' /\ denote e' = denote e /\ need e' <= need e;
    incr_law : forall fuel e x r, wf e -> denote e = x :: r -> need e <= fuel ->
      exists e', incr fuel e = Done e' /\ wf e' /\ denote e' = r /\ need e' <= need e }.

Arguments Lawful T E {_}.
Arguments wf {T E _ _} e.
Arguments denote {T E _ _} e.
Arguments need {T E _ _} e.

(** *** The source cursor *)

Definition range_wf {T} (r : range_enumerator T) : Prop :=
  begin_ r <= end_ r /\ end_ r <= length (coll r).

Definition range_denote {T} (r : range_enumerator T) : list T :=
  firstn (end_ r - begin_ r) (skipn (begin_ r) (coll r)).

Definition range_need {T} (r : range_enumerator T) : nat :=
  S (end_ r - begin_ r).

Lemma skipn_nth_error {A} (l : list A) (n : nat) (x : A) :
  nth_error l n = Some x -> skipn n l = x :: skipn (S n) l.
Proof.
  revert n; induction l as [|y l IH]; intros [|n] Hn; simpl in *; try discriminate.
  - now inversion Hn.
  - now apply IH.
Qed.

Lemma range_denote_cons {T} (r : range_enumerator T) :
  range_wf r -> begin_ r <> end_ r ->
  exists x, nth_error (coll r) (begin_ r) = Some x
            /\ range_denote r
               = x :: firstn (end_ r - S (begin_ r)) (skipn (S (begin_ r)) (coll r)).
Proof.
  intros [Hb He] Hne. unfold range_denote.
  destruct (nth_error (coll r) (begin_ r)) as [x|] eqn:Hx.
  - exists x; split; [reflexivity|].
    rewrite (skipn_nth_error _ _ Hx).
    replace (end_ r - begin_ r) with (S (end_ r - S (begin_ r))) by lia.
    reflexivity.
  - apply nth_error_None in Hx. lia.
Qed.

Lemma range_denote_nil {T} (r : range_enumerator T) :
  begin_ r = end_ r -> range_denote r = [].
Proof.
  intros Heq. unfold range_denote. rewrite Heq, Nat.sub_diag. reflexivity.
Qed.

Lemma range_need_denote {T} (r : range_enumerator T) :
  range_wf r -> length (range_denote r) < range_need r.
Proof.
  intros _. unfold range_denote, range_need.
  rewrite length_firstn. lia.
Qed.

Lemma range_to_bool_law {T} (r : range_enumerator T) :
  range_wf r ->
  exists r', to_bool r = Done (negb (is_nil (range_denote r)), r')
             /\ range_wf r' /\ range_denote r' = range_denote r
             /\ range_need r' <= range_need r.
Proof.
  intros Hwf. exists r. simpl. unfold range_to_bool.
  destruct (Nat.eqb_spec (begin_ r) (end_ r)) as [Heq|Hne].
  - rewrite (range_denote_nil _ Heq). auto.
  - destruct (range_denote_cons Hwf Hne) as (x & _ & ->). auto.
Qed.

Lemma range_deref_law {T} (r : range_enumerator T) x l :
  range_wf r -> range_denote r = x :: l -> exists r', deref r = Done (x, r').
Proof.
  intros Hwf Hd. exists r. simpl. unfold range_deref.
  destruct (Nat.eq_dec (begin_ r) (end_ r)) as [Heq|Hne].
  - rewrite (range_denote_nil _ Heq) in Hd. discriminate.
  - destruct (range_denote_cons Hwf Hne) as (y & -> & Hy).
    rewrite Hy in Hd. now inversion Hd.
Qed.

Lemma range_deref_keep {T} (r : range_enumerator T) v r' :
  range_wf r -> deref r = Done (v, r') ->
  range_wf r' /\ range_denote r' = range_denote r /\ range_need r' <= range_need r.
Proof.
  simpl. unfold range_deref. intros Hwf Hd.
  destruct (nth_error (coll r) (begin_ r)); inversion Hd; subst. auto.
Qed.

Lemma range_incr_law {T} (fuel : nat) (r : range_enumerator T) x l :
  range_wf r -> range_denote r = x :: l -> range_need r <= fuel ->
  exists r', incr fuel r = Done r' /\ range_wf r' /\ range_denote r' = l
             /\ range_need r' <= range_need r.
Proof.
  intros Hwf Hd _. simpl. unfold range_incr.
  destruct (Nat.eq_dec (begin_ r) (end_ r)) as [Heq|Hne].
  - rewrite (range_denote_nil _ Heq) in Hd. discriminate.
  - destruct (range_denote_cons Hwf Hne) as (y & Hy & Hc).
    rewrite Hc in Hd. inversion Hd; subst.
    destruct Hwf as [Hb He].
    assert (Hlt : begin_ r < length (coll r)) by lia.
    apply Nat.ltb_lt in Hlt. rewrite Hlt.
    eexists; split; [reflexivity|].
    unfold range_wf, range_denote, range_need; simpl.
    repeat split; try lia.
Qed.

#[export] Instance range_Lawful (T : Type) : Lawful T (range_enumerator T) :=
  { wf := range_wf;
    denote := range_denote;
    need := range_need;
    need_denote := @range_need_denote T;
    to_bool_law := @range_to_bool_law T;
    deref_law := @range_deref_law T;
    deref_keep := @range_deref_keep T;
    incr_law := @range_incr_law T }.

(** *** Take *)

Lemma firstn_pos_is_nil {A} (n : nat) (l : list A) :
  0 < n -> is_nil (firstn n l) = is_nil l.
Proof. destruct n; [lia|]. now destruct l. Qed.

Lemma firstn_cons_inv {A} (n : nat) (l : list A) x r :
  firstn n l = x :: r ->
  exists n' l', n = S n' /\ l = x :: l' /\ r = firstn n' l'.
Proof.
  destruct n as [|n]; [discriminate|]. destruct l as [|y l]; [discriminate|].
  simpl. intros Heq. inversion Heq; subst. now exists n, l.
Qed.

Section TakeLaws.
Context `{Lawful T E}.

Definition take_wf (t : take_enumerator E) : Prop := wf (take_parent_ t).

Definition take_denote (t : take_enumerator E) : list T :=
  firstn (Z.to_nat (amount_ t)) (denote (take_parent_ t)).

Definition take_need (t : take_enumerator E) : nat := need (take_parent_ t).

Lemma take_need_denote t : take_wf t -> length (take_denote t) < take_need t.
Proof.
  intros Hwf. unfold take_denote, take_need. rewrite length_firstn.
  pose proof (need_denote _ Hwf). lia.
Qed.

Lemma take_to_bool_law t :
  take_wf t ->
  exists t', to_bool t = Done (negb (is_nil (take_denote t)), t')
             /\ take_wf t' /\ take_denote t' = take_denote t
             /\ take_need t' <= take_need t.
Proof.
  intros Hwf. simpl. unfold take_to_bool, take_denote.
  destruct (Z.ltb_spec 0 (amount_ t)) as [Hpos|Hneg].
  - destruct (to_bool_law _ Hwf) as (p & -> & Hwf' & Hd & Hn). simpl.
    eexists; split.
    + rewrite firstn_pos_is_nil by lia. reflexivity.
    + unfold take_wf, take_denote, take_need; simpl. rewrite Hd. auto.
  - exists t. replace (Z.to_nat (amount_ t)) with 0 by lia. simpl. auto.
Qed.

Lemma take_deref_law t x r :
  take_wf t -> take_denote t = x :: r -> exists t', deref t = Done (x, t').
Proof.
  intros Hwf Hd. apply firstn_cons_inv in Hd as (n & l & _ & Hl & _).
  destruct (deref_law _ Hwf Hl) as (p & Hp).
  simpl. unfold take_deref. rewrite Hp. simpl. eauto.
Qed.

Lemma take_deref_keep t v t' :
  take_wf t -> deref t = Done (v, t') ->
  take_wf t' /\ take_denote t' = take_denote t /\ take_need t' <= take_need t.
Proof.
  intros Hwf. simpl. unfold take_deref.
  destruct (deref (take_parent_ t)) as [[u p]| |] eqn:Hp; simpl; try discriminate.
  intros Heq; inversion Heq; subst.
  destruct (deref_keep _ Hwf Hp) as (Hwf' & Hd & Hn).
  unfold take_wf, take_denote, take_need; simpl. rewrite Hd. auto.
Qed.

Lemma take_incr_law fuel t x r :
  take_wf t -> take_denote t = x :: r -> take_need t <= fuel ->
  exists t', incr fuel t = Done t' /\ take_wf t' /\ take_denote t' = r
             /\ take_need t' <= take_need t.
Proof.
  intros Hwf Hd Hfuel. apply firstn_cons_inv in Hd as (n & l & Hn & Hl & Hr).
  destruct (incr_law _ Hwf Hl Hfuel) as (p & Hp & Hwf' & Hd' & Hn').
  simpl. unfold take_incr. rewrite Hp. simpl.
  destruct (Z.eqb_spec (amount_ t) INT_MIN) as [Hmin|_].
  - rewrite Hmin in Hn. discriminate.
  - eexists; split; [reflexivity|].
    unfold take_wf, take_denote, take_need; simpl.
    rewrite Hd', Hr. repeat split; auto.
    f_equal. lia.
Qed.

#[export] Instance take_Lawful : Lawful T (take_enumerator E) :=
  { wf := take_wf;
    denote := take_denote;
    need := take_need;
    need_denote := take_need_denote;
    to_bool_law := take_to_bool_law;
    deref_law := take_deref_law;
    deref_keep := take_deref_keep;
    incr_law := take_incr_law }.
End TakeLaws.

(** *** Drop *)

Section DropLaws.
Context `{Lawful T E}.

Definition drop_wf (d : drop_enumerator E) : Prop := wf (drop_parent_ d).
Definition drop_denote (d : drop_enumerator E) : list T := denote (drop_parent_ d).
Definition drop_need (d : drop_enumerator E) : nat := need (drop_parent_ d).

Lemma drop_need_denote d : drop_wf d -> length (drop_denote d) < drop_need d.
Proof. apply need_denote. Qed.

Lemma drop_to_bool_law d :
  drop_wf d ->
  exists d', to_bool d = Done (negb (is_nil (drop_denote d)), d')
             /\ drop_wf d' /\ drop_denote d' = drop_denote d
             /\ drop_need d' <= drop_need d.
Proof.
  intros Hwf. simpl. unfold drop_to_bool.
  destruct (to_bool_law _ Hwf) as (p & -> & Hwf' & Hd & Hn). simpl.
  eexists; split; [reflexivity|]. auto.
Qed.

Lemma drop_deref_law d x r :
  drop_wf d -> drop_denote d = x :: r -> exists d', deref d = Done (x, d').
Proof.
  intros Hwf Hd. destruct (deref_law _ Hwf Hd) as (p & Hp).
  simpl. unfold drop_deref. rewrite Hp. simpl. eauto.
Qed.

Lemma drop_deref_keep d v d' :
  drop_wf d -> deref d = Done (v, d') ->
  drop_wf d' /\ drop_denote d' = drop_denote d /\ drop_need d' <= drop_need d.
Proof.
  intros Hwf. simpl. unfold drop_deref.
  destruct (deref (drop_parent_ d)) as [[u p]| |] eqn:Hp; simpl; try discriminate.
  intros Heq; inversion Heq; subst.
  apply (deref_keep _ Hwf Hp).
Qed.

Lemma drop_incr_law fuel d x r :
  drop_wf d -> drop_denote d = x :: r -> drop_need d <= fuel ->
  exists d', incr fuel d = Done d' /\ drop_wf d' /\ drop_denote d' = r
             /\ drop_need d' <= drop_need d.
Proof.
  intros Hwf Hd Hfuel.
  destruct (incr_law _ Hwf Hd Hfuel) as (p & Hp & Hwf' & Hd' & Hn').
  simpl. unfold drop_incr. rewrite Hp. simpl.
  eexists; split; [reflexivity|]. auto.
Qed.

#[export] Instance drop_Lawful : Lawful T (drop_enumerator E) :=
  { wf := drop_wf;
    denote := drop_denote;
    need := drop_need;
    need_denote := drop_need_denote;
    to_bool_law := drop_to_bool_law;
    deref_law := drop_deref_law;
    deref_keep := drop_deref_keep;
    incr_law := drop_incr_law }.

(** The constructor's loop leaves the upstream [amount] elements further,
    or at its end. *)
Lemma drop_loop_law fuel amount : forall gas i p,
  wf p -> length (denote p) <= gas -> need p <= fuel ->
  exists p', drop_loop gas fuel amount i p = Done p'
             /\ wf p' /\ denote p' = skipn (Z.to_nat (amount - i)) (denote p)
             /\ need p' <= need p.
Proof.
  induction gas as [|gas IH]; intros i p Hwf Hlen Hfuel.
  - destruct (denote p) as [|x r] eqn:Hd; [|simpl in Hlen; lia].
    simpl. destruct (Z.ltb_spec i amount) as [Hlt|Hge].
    + destruct (to_bool_law _ Hwf) as (p1 & -> & Hwf1 & Hd1 & Hn1).
      rewrite Hd. simpl. exists p1. rewrite Hd1, Hd, skipn_nil. auto.
    + exists p. replace (Z.to_nat (amount - i)) with 0 by lia.
      rewrite Hd. auto.
  - simpl. destruct (Z.ltb_spec i amount) as [Hlt|Hge].
    + destruct (to_bool_law _ Hwf) as (p1 & -> & Hwf1 & Hd1 & Hn1).
      destruct (denote p) as [|x r] eqn:Hd; simpl.
      * exists p1. rewrite Hd1, skipn_nil. auto.
      * destruct (incr_law (fuel := fuel) _ Hwf1 Hd1 ltac:(lia))
          as (p2 & -> & Hwf2 & Hd2 & Hn2). simpl.
        destruct (IH (i + 1)%Z p2 Hwf2) as (p' & -> & Hwf' & Hd' & Hn');
          [rewrite Hd2; simpl in Hlen; lia | lia |].
        exists p'. repeat split; auto; [|lia].
        rewrite Hd', Hd2.
        replace (Z.to_nat (amount - i)) with (S (Z.to_nat (amount - (i + 1)))) by lia.
        reflexivity.
    + exists p. replace (Z.to_nat (amount - i)) with 0 by lia. auto.
Qed.
End DropLaws.

(** *** Select *)

Section SelectLaws.
Context `{Lawful U E} `{PureCallable F U T}.

Definition select_wf (s : select_enumerator T E F) : Prop :=
  wf (select_parent_ s) /\ (select_flag_ s = false -> value_ s <> None).

(** With the flag cleared the head is the cached value. *)
Definition select_denote (s : select_enumerator T E F) : list T :=
  match select_flag_ s, value_ s, denote (select_parent_ s) with
  | false, Some v, _ :: r => v :: map (fn (select_func_ s)) r
  | _, _, l => map (fn (select_func_ s)) l
  end.

Definition select_need (s : select_enumerator T E F) : nat := need (select_parent_ s).

Lemma select_denote_length s :
  length (select_denote s) = length (denote (select_parent_ s)).
Proof.
  unfold select_denote.
  destruct (select_flag_ s), (value_ s), (denote (select_parent_ s));
    simpl; now rewrite ?length_map.
Qed.

Lemma select_denote_is_nil s :
  is_nil (select_denote s) = is_nil (denote (select_parent_ s)).
Proof.
  unfold select_denote.
  destruct (select_flag_ s), (value_ s), (denote (select_parent_ s)); reflexivity.
Qed.

Lemma select_need_denote s : select_wf s -> length (select_denote s) < select_need s.
Proof.
  intros [Hwf _]. rewrite select_denote_length. now apply need_denote.
Qed.

Lemma select_to_bool_law s :
  select_wf s ->
  exists s', to_bool s = Done (negb (is_nil (select_denote s)), s')
             /\ select_wf s' /\ select_denote s' = select_denote s
             /\ select_need s' <= select_need s.
Proof.
  intros [Hwf Hv]. simpl. unfold select_to_bool.
  destruct (to_bool_law _ Hwf) as (p & -> & Hwf' & Hd & Hn). simpl.
  eexists; split; [now rewrite select_denote_is_nil|].
  unfold select_wf, select_denote, select_need; simpl. rewrite Hd. auto.
Qed.

Lemma select_deref_law s x r :
  select_wf s -> select_denote s = x :: r -> exists s', deref s = Done (x, s').
Proof.
  intros [Hwf Hv] Hd. simpl. unfold select_deref. unfold select_denote in Hd.
  destruct (select_flag_ s) eqn:Hflag.
  - assert (Hmap : map (fn (select_func_ s)) (denote (select_parent_ s)) = x :: r)
      by (destruct (value_ s); exact Hd).
    destruct (denote (select_parent_ s)) as [|u l] eqn:Hl; [discriminate|].
    simpl in Hmap. inversion Hmap; subst.
    destruct (deref_law _ Hwf Hl) as (p & ->). simpl.
    pose proof (call_fst (select_func_ s) u) as Hc.
    destruct (call (select_func_ s) u) as [v f]. simpl in Hc. subst v. eauto.
  - destruct (value_ s) as [v|]; [|now destruct Hv].
    destruct (denote (select_parent_ s)) as [|u l]; [discriminate|].
    inversion Hd; subst. eauto.
Qed.

Lemma select_deref_keep s v s' :
  select_wf s -> deref s = Done (v, s') ->
  select_wf s' /\ select_denote s' = select_denote s /\ select_need s' <= select_need s.
Proof.
  intros [Hwf Hv]. simpl. unfold select_deref.
  destruct (select_flag_ s) eqn:Hflag.
  - destruct (deref (select_parent_ s)) as [[u p]| |] eqn:Hp; simpl; try discriminate.
    pose proof (call_fst (select_func_ s) u) as Hc1.
    pose proof (call_snd (select_func_ s) u) as Hc2.
    destruct (call (select_func_ s) u) as [w f]. simpl in Hc1, Hc2.
    intros Heq; inversion Heq; subst.
    destruct (deref_keep _ Hwf Hp) as (Hwf' & Hd & Hn).
    unfold select_wf, select_denote, select_need; simpl.
    rewrite Hflag, Hd, Hc2. repeat split; auto; [discriminate|].
    destruct (denote (select_parent_ s)) as [|u' l] eqn:Hl.
    + now destruct (value_ s).
    + destruct (deref_law _ Hwf Hl) as (p' & Hp'). rewrite Hp in Hp'.
      inversion Hp'; subst. now destruct (value_ s).
  - destruct (value_ s) as [w|] eqn:Hval; [|discriminate].
    intros Heq; inversion Heq; subst. unfold select_wf.
    repeat split; auto. intros _. rewrite Hval. discriminate.
Qed.

Lemma select_incr_law fuel s x r :
  select_wf s -> select_denote s = x :: r -> select_need s <= fuel ->
  exists s', incr fuel s = Done s' /\ select_wf s' /\ select_denote s' = r
             /\ select_need s' <= select_need s.
Proof.
  intros [Hwf Hv] Hd Hfuel.
  destruct (denote (select_parent_ s)) as [|u l] eqn:Hl.
  - unfold select_denote in Hd. rewrite Hl in Hd.
    destruct (select_flag_ s), (value_ s); discriminate.
  - destruct (incr_law _ Hwf Hl Hfuel) as (p & Hp & Hwf' & Hd' & Hn').
    simpl. unfold select_incr. rewrite Hp. simpl.
    eexists; split; [reflexivity|].
    unfold select_wf, select_denote, select_need; simpl.
    rewrite Hd'. split; [split; [assumption | discriminate] | split; [|assumption]].
    unfold select_denote in Hd. rewrite Hl in Hd.
    destruct (value_ s), (select_flag_ s); simpl in Hd; now inversion Hd.
Qed.

#[export] Instance select_Lawful : Lawful T (select_enumerator T E F) :=
  { wf := select_wf;
    denote := select_denote;
    need := select_need;
    need_denote := select_need_denote;
    to_bool_law := select_to_bool_law;
    deref_law := select_deref_law;
    deref_keep := select_deref_keep;
    incr_law := select_incr_law }.
End SelectLaws.

(** *** Until *)

Section UntilLaws.
Context `{Lawful T E} `{PureCallable F T bool}.

Definition until_wf (u : until_enumerator E F) : Prop :=
  wf (until_parent_ u) /\ (flag_of_flag_ u = true -> until_flag_ u <> None).

(** A memoized decision stands for the current position whatever the
    function object would say. *)
Definition until_denote (u : until_enumerator E F) : list T :=
  match flag_of_flag_ u, until_flag_ u with
  | false, _ => before_first (fn (until_func_ u)) (denote (until_parent_ u))
  | true, Some true =>
      keep_head (before_first (fn (until_func_ u))) (denote (until_parent_ u))
  | true, _ => []
  end.

Definition until_need (u : until_enumerator E F) : nat := need (until_parent_ u).

Lemma before_first_length {A} (p : A -> bool) l :
  length (before_first p l) <= length l.
Proof. induction l as [|x l IH]; simpl; [lia|]. destruct (p x); simpl; lia. Qed.

Lemma until_denote_cons u x r :
  until_denote u = x :: r ->
  exists l, denote (until_parent_ u) = x :: l
            /\ r = before_first (fn (until_func_ u)) l.
Proof.
  unfold until_denote.
  destruct (flag_of_flag_ u), (until_flag_ u) as [[|]|],
    (denote (until_parent_ u)) as [|y l]; simpl; try discriminate;
    try (destruct (fn (until_func_ u) y); try discriminate);
    intros Heq; inversion Heq; subst; eauto.
Qed.

Lemma until_need_denote u : until_wf u -> length (until_denote u) < until_need u.
Proof.
  intros [Hwf _]. pose proof (need_denote _ Hwf) as Hn.
  pose proof (before_first_length (fn (until_func_ u)) (denote (until_parent_ u))).
  unfold until_denote, until_need.
  destruct (flag_of_flag_ u), (until_flag_ u) as [[|]|]; simpl; try lia.
  destruct (denote (until_parent_ u)) as [|y l]; simpl in *; try lia.
  pose proof (before_first_length (fn (until_func_ u)) l). lia.
Qed.

Lemma until_to_bool_law u :
  until_wf u ->
  exists u', to_bool u = Done (negb (is_nil (until_denote u)), u')
             /\ until_wf u' /\ until_denote u' = until_denote u
             /\ until_need u' <= until_need u.
Proof.
  intros [Hwf Hfl]. simpl. unfold until_to_bool.
  destruct (to_bool_law _ Hwf) as (p & -> & Hwf1 & Hd1 & Hn1). simpl.
  destruct (denote (until_parent_ u)) as [|x l] eqn:Hl; simpl.
  - assert (Hnil : until_denote u = []).
    { unfold until_denote. rewrite Hl.
      now destruct (flag_of_flag_ u), (until_flag_ u) as [[|]|]. }
    eexists; split; [rewrite Hnil; reflexivity|]. rewrite Hnil.
    unfold until_wf, until_denote, until_need; simpl. rewrite Hd1.
    repeat split; auto.
    now destruct (flag_of_flag_ u), (until_flag_ u) as [[|]|].
  - destruct (flag_of_flag_ u) eqn:Hfof; simpl.
    + destruct (until_flag_ u) as [fl|] eqn:Hflag; [|now destruct Hfl].
      assert (Hfd : until_denote u
                    = if fl then x :: before_first (fn (until_func_ u)) l else []).
      { unfold until_denote. rewrite Hfof, Hflag, Hl. now destruct fl. }
      eexists; split; [rewrite Hfd; now destruct fl|]. rewrite Hfd.
      unfold until_wf, until_denote, until_need; simpl.
      rewrite Hd1. repeat split; auto.
    + destruct (deref_law _ Hwf1 Hd1) as (p1 & Hp1). rewrite Hp1. simpl.
      destruct (deref_keep _ Hwf1 Hp1) as (Hwf2 & Hd2 & Hn2).
      pose proof (call_fst (until_func_ u) x) as Hc1.
      pose proof (call_snd (until_func_ u) x) as Hc2.
      destruct (call (until_func_ u) x) as [b f]. simpl in Hc1, Hc2.
      assert (Hfd : until_denote u
                    = if b then [] else x :: before_first (fn (until_func_ u)) l).
      { unfold until_denote. rewrite Hfof, Hl. simpl. now rewrite <- Hc1. }
      eexists; split; [rewrite Hfd; now destruct b|]. rewrite Hfd.
      unfold until_wf, until_denote, until_need; simpl.
      rewrite Hd2, Hd1, Hc2.
      repeat split; [assumption | discriminate | now destruct b | lia].
Qed.

Lemma until_deref_law u x r :
  until_wf u -> until_denote u = x :: r -> exists u', deref u = Done (x, u').
Proof.
  intros [Hwf _] Hd. apply until_denote_cons in Hd as (l & Hl & _).
  destruct (deref_law _ Hwf Hl) as (p & Hp).
  simpl. unfold until_deref. rewrite Hp. simpl. eauto.
Qed.

Lemma until_deref_keep u v u' :
  until_wf u -> deref u = Done (v, u') ->
  until_wf u' /\ until_denote u' = until_denote u /\ until_need u' <= until_need u.
Proof.
  intros [Hwf Hfl]. simpl. unfold until_deref.
  destruct (deref (until_parent_ u)) as [[y p]| |] eqn:Hp; simpl; try discriminate.
  intros Heq; inversion Heq; subst.
  destruct (deref_keep _ Hwf Hp) as (Hwf' & Hd & Hn).
  unfold until_wf, until_denote, until_need; simpl. rewrite Hd. auto.
Qed.

Lemma until_incr_law fuel u x r :
  until_wf u -> until_denote u = x :: r -> until_need u <= fuel ->
  exists u', incr fuel u = Done u' /\ until_wf u' /\ until_denote u' = r
             /\ until_need u' <= until_need u.
Proof.
  intros [Hwf Hfl] Hd Hfuel. apply until_denote_cons in Hd as (l & Hl & Hr).
  destruct (incr_law _ Hwf Hl Hfuel) as (p & Hp & Hwf' & Hd' & Hn').
  simpl. unfold until_incr. rewrite Hp. simpl.
  eexists; split; [reflexivity|].
  unfold until_wf, until_denote, until_need; simpl.
  rewrite Hd', Hr. repeat split; auto. discriminate.
Qed.

#[export] Instance until_Lawful : Lawful T (until_enumerator E F) :=
  { wf := until_wf;
    denote := until_denote;
    need := until_need;
    need_denote := until_need_denote;
    to_bool_law := until_to_bool_law;
    deref_law := until_deref_law;
    deref_keep := until_deref_keep;
    incr_law := until_incr_law }.
End UntilLaws.

(** *** Where *)

Lemma from_first_length {A} (p : A -> bool) l : length (from_first p l) <= length l.
Proof. induction l as [|x l IH]; simpl; [lia|]. destruct (p x); simpl; lia. Qed.

Lemma keep_head_from_first {A} (p : A -> bool) l :
  keep_head (filter p) (from_first p l) = filter p l.
Proof.
  induction l as [|x l IH]; simpl; [reflexivity|].
  destruct (p x) eqn:Hp; simpl; [reflexivity | exact IH].
Qed.

(** The head of [l], when there is one, is accepted by [p]. *)
Definition head_accepted {A} (p : A -> bool) (l : list A) : bool :=
  match l with
  | [] => true
  | x :: _ => p x
  end.

Lemma head_accepted_from_first {A} (p : A -> bool) l :
  head_accepted p (from_first p l) = true.
Proof.
  induction l as [|x l IH]; simpl; [reflexivity|].
  destruct (p x) eqn:Hp; simpl; auto.
Qed.

Lemma keep_head_filter_accepted {A} (p : A -> bool) l :
  head_accepted p l = true -> keep_head (filter p) l = filter p l.
Proof. destruct l as [|x l]; simpl; [reflexivity|]. now intros ->. Qed.

Section WhereLaws.
Context `{Lawful T E} `{PureCallable F T bool}.

Definition where_wf (w : where_enumerator E F) : Prop := wf (where_parent_ w).

(** The current element is presented unchecked; what follows is filtered. *)
Definition where_denote (w : where_enumerator E F) : list T :=
  keep_head (filter (fn (where_func_ w))) (denote (where_parent_ w)).

Definition where_need (w : where_enumerator E F) : nat := need (where_parent_ w).

Lemma where_denote_length w :
  length (where_denote w) <= length (denote (where_parent_ w)).
Proof.
  unfold where_denote. destruct (denote (where_parent_ w)) as [|x l]; simpl; [lia|].
  pose proof (filter_length_le (fn (where_func_ w)) l). lia.
Qed.

Lemma where_need_denote w : where_wf w -> length (where_denote w) < where_need w.
Proof.
  intros Hwf. pose proof (where_denote_length w). pose proof (need_denote _ Hwf).
  unfold where_need. lia.
Qed.

Lemma where_to_bool_law w :
  where_wf w ->
  exists w', to_bool w = Done (negb (is_nil (where_denote w)), w')
             /\ where_wf w' /\ where_denote w' = where_denote w
             /\ where_need w' <= where_need w.
Proof.
  intros Hwf. simpl. unfold where_to_bool.
  destruct (to_bool_law _ Hwf) as (p & -> & Hwf' & Hd & Hn). simpl.
  eexists; split.
  - unfold where_denote. now destruct (denote (where_parent_ w)).
  - unfold where_wf, where_denote, where_need; simpl. rewrite Hd. auto.
Qed.

Lemma where_deref_law w x r :
  where_wf w -> where_denote w = x :: r -> exists w', deref w = Done (x, w').
Proof.
  intros Hwf Hd. unfold where_denote in Hd.
  destruct (denote (where_parent_ w)) as [|y l] eqn:Hl; [discriminate|].
  simpl in Hd. inversion Hd; subst.
  destruct (deref_law _ Hwf Hl) as (p & Hp).
  simpl. unfold where_deref. rewrite Hp. simpl. eauto.
Qed.

Lemma where_deref_keep w v w' :
  where_wf w -> deref w = Done (v, w') ->
  where_wf w' /\ where_denote w' = where_denote w /\ where_need w' <= where_need w.
Proof.
  intros Hwf. simpl. unfold where_deref.
  destruct (deref (where_parent_ w)) as [[y p]| |] eqn:Hp; simpl; try discriminate.
  intros Heq; inversion Heq; subst.
  destruct (deref_keep _ Hwf Hp) as (Hwf' & Hd & Hn).
  unfold where_wf, where_denote, where_need; simpl. rewrite Hd. auto.
Qed.

(** The skipping loop stops at the first upstream element that the
    predicate accepts, or at the end of the upstream. *)
Lemma where_skip_law fuel : forall gas p f,
  wf p -> length (denote p) <= gas -> need p <= fuel ->
  exists w, where_skip gas fuel p f = Done w
            /\ wf (where_parent_ w)
            /\ denote (where_parent_ w) = from_first (fn f) (denote p)
            /\ need (where_parent_ w) <= need p
            /\ fn (where_func_ w) = fn f.
Proof.
  induction gas as [|gas IH]; intros p f Hwf Hlen Hfuel.
  - destruct (denote p) as [|x r] eqn:Hd; [|simpl in Hlen; lia].
    simpl. destruct (to_bool_law _ Hwf) as (p1 & -> & Hwf1 & Hd1 & Hn1).
    rewrite Hd. simpl. eexists; split; [reflexivity|]. simpl.
    rewrite Hd1, Hd. auto.
  - simpl. destruct (to_bool_law _ Hwf) as (p1 & -> & Hwf1 & Hd1 & Hn1).
    destruct (denote p) as [|x r] eqn:Hd; simpl.
    + eexists; split; [reflexivity|]. simpl. rewrite Hd1. auto.
    + destruct (deref_law _ Hwf1 Hd1) as (p2 & Hp2). rewrite Hp2. simpl.
      destruct (deref_keep _ Hwf1 Hp2) as (Hwf2 & Hd2 & Hn2).
      pose proof (call_fst f x) as Hc1. pose proof (call_snd f x) as Hc2.
      destruct (call f x) as [b f1]. simpl in Hc1, Hc2. rewrite <- Hc1.
      destruct b; simpl.
      * eexists; split; [reflexivity|]. simpl.
        rewrite Hd2, Hd1. repeat split; auto. lia.
      * rewrite Hd1 in Hd2.
        destruct (incr_law (fuel := fuel) _ Hwf2 Hd2 ltac:(lia))
          as (p3 & -> & Hwf3 & Hd3 & Hn3). simpl.
        destruct (IH p3 f1 Hwf3) as (w & -> & Hwf' & Hd' & Hn' & Hf');
          [rewrite Hd3; simpl in Hlen; lia | lia |].
        exists w. rewrite Hd', Hd3, Hf', Hc2. repeat split; auto. lia.
Qed.

Lemma where_incr_law fuel w x r :
  where_wf w -> where_denote w = x :: r -> where_need w <= fuel ->
  exists w', incr fuel w = Done w' /\ where_wf w' /\ where_denote w' = r
             /\ where_need w' <= where_need w.
Proof.
  intros Hwf Hd Hfuel. unfold where_denote in Hd.
  destruct (denote (where_parent_ w)) as [|y l] eqn:Hl; [discriminate|].
  simpl in Hd. inversion Hd; subst.
  destruct (incr_law _ Hwf Hl Hfuel) as (p & Hp & Hwf1 & Hd1 & Hn1).
  simpl. unfold where_incr. rewrite Hp. simpl.
  pose proof (need_denote _ Hwf1) as Hnd.
  destruct (@where_skip_law fuel fuel p (where_func_ w) Hwf1)
    as (w' & -> & Hwf' & Hd' & Hn' & Hf'); [unfold where_need in Hfuel; lia ..|].
  exists w'. unfold where_wf, where_denote, where_need.
  rewrite Hd', Hf', Hd1, keep_head_from_first. repeat split; auto. lia.
Qed.

#[export] Instance where_Lawful : Lawful T (where_enumerator E F) :=
  { wf := where_wf;
    denote := where_denote;
    need := where_need;
    need_denote := where_need_denote;
    to_bool_law := where_to_bool_law;
    deref_law := where_deref_law;
    deref_keep := where_deref_keep;
    incr_law := where_incr_law }.
End WhereLaws.

(** ** The collector on a lawful cursor *)

Section Collector.
Context `{Lawful T E}.

Lemma to_vector_loop_law fuel : forall gas e result,
  wf e -> length (denote e) <= gas -> need e <= fuel ->
  exists e', to_vector_loop gas fuel e result = Done (result ++ denote e, e')
             /\ wf e' /\ denote e' = [] /\ need e' <= need e.
Proof.
  induction gas as [|gas IH]; intros e result Hwf Hlen Hfuel.
  - destruct (denote e) as [|x r] eqn:Hd; [|simpl in Hlen; lia].
    simpl. destruct (to_bool_law _ Hwf) as (e1 & -> & Hwf1 & Hd1 & Hn1).
    rewrite Hd. simpl. exists e1. rewrite app_nil_r, Hd1. auto.
  - simpl. destruct (to_bool_law _ Hwf) as (e1 & -> & Hwf1 & Hd1 & Hn1).
    destruct (denote e) as [|x r] eqn:Hd; simpl.
    + exists e1. rewrite app_nil_r, Hd1. auto.
    + destruct (deref_law _ Hwf1 Hd1) as (e2 & He2). rewrite He2. simpl.
      destruct (deref_keep _ Hwf1 He2) as (Hwf2 & Hd2 & Hn2).
      rewrite Hd1 in Hd2.
      destruct (incr_law (fuel := fuel) _ Hwf2 Hd2 ltac:(lia))
        as (e3 & -> & Hwf3 & Hd3 & Hn3). simpl.
      destruct (IH e3 (result ++ [x]) Hwf3) as (e' & -> & Hwf' & Hd' & Hn');
        [rewrite Hd3; simpl in Hlen; lia | lia |].
      exists e'. rewrite Hd3, <- app_assoc. simpl. repeat split; auto. lia.
Qed.

Lemma to_vector_law fuel e :
  wf e -> need e <= fuel ->
  exists e', to_vector fuel e = Done (denote e, e')
             /\ wf e' /\ denote e' = [] /\ need e' <= need e.
Proof.
  intros Hwf Hfuel. pose proof (need_denote _ Hwf).
  apply (@to_vector_loop_law fuel fuel e [] Hwf); lia.
Qed.
End Collector.

(** ** Constructors on lawful upstreams *)

Section Constructors.
Context `{Lawful T E}.

Lemma take_ctor_law (e : E) (n : Z) :
  wf e -> wf (take e n) /\ denote (take e n) = firstn (Z.to_nat n) (denote e)
          /\ need (take e n) = need e.
Proof. intros Hwf. repeat split; auto. Qed.

Lemma drop_ctor_law fuel (e : E) (n : Z) :
  wf e -> need e <= fuel ->
  exists d, drop fuel e n = Done d /\ wf d
            /\ denote d = skipn (Z.to_nat n) (denote e) /\ need d <= need e.
Proof.
  intros Hwf Hfuel. unfold drop. pose proof (need_denote _ Hwf).
  destruct (@drop_loop_law _ _ _ _ fuel n fuel 0%Z e Hwf)
    as (p & -> & Hwf' & Hd & Hn); [lia..|].
  simpl. eexists; split; [reflexivity|].
  rewrite Z.sub_0_r in Hd. repeat split; auto.
Qed.

Lemma until_ctor_law `{PureCallable F T bool} (e : E) (f : F) :
  wf e -> wf (until e f) /\ denote (until e f) = before_first (fn f) (denote e)
          /\ need (until e f) = need e.
Proof. intros Hwf. repeat split; auto. discriminate. Qed.

Lemma where_ctor_law `{PureCallable F T bool} fuel (e : E) (f : F) :
  wf e -> need e <= fuel ->
  exists w, where_ fuel e f = Done w /\ wf w
            /\ denote w = filter (fn f) (denote e) /\ need w <= need e
            /\ head_accepted (fn f) (denote (where_parent_ w)) = true.
Proof.
  intros Hwf Hfuel. unfold where_. pose proof (need_denote _ Hwf).
  destruct (@where_skip_law _ _ _ _ _ _ _ fuel fuel e f Hwf)
    as (w & -> & Hwf' & Hd & Hn & Hf); [lia..|].
  exists w. split; [reflexivity|]. split; [exact Hwf'|].
  split; [|split; [exact Hn|]].
  - simpl. unfold where_denote. rewrite Hd, Hf. apply keep_head_from_first.
  - rewrite Hd. apply head_accepted_from_first.
Qed.
End Constructors.

Lemma select_ctor_law `{Lawful U E} `{PureCallable F U T} (e : E) (f : F) :
  wf e -> wf (select e f) /\ denote (select e f) = map (fn f) (denote e)
          /\ need (select e f) = need e.
Proof. intros Hwf. repeat split; auto. discriminate. Qed.

Lemma from_law {T} (c : list T) :
  wf (from c) /\ denote (from c) = c /\ need (from c) = S (length c).
Proof.
  unfold from, from_range. simpl. unfold range_wf, range_denote, range_need. simpl.
  rewrite Nat.sub_0_r, firstn_all. repeat split; lia.
Qed.

(** ** Cursors produced by the library

    A source cursor, or a decorator built on such a cursor with a pure
    function object. *)

Inductive library_cursor : forall (T E : Type), Enumerator T E -> Type :=
| lc_range (T : Type) : library_cursor (range_Enumerator T)
| lc_take (T E : Type) (I : Enumerator T E) :
    library_cursor I -> library_cursor (@take_Enumerator T E I)
| lc_drop (T E : Type) (I : Enumerator T E) :
    library_cursor I -> library_cursor (@drop_Enumerator T E I)
| lc_select (U T E F : Type) (I : Enumerator U E) (C : Callable F U T)
    (P : PureCallable F U T) :
    library_cursor I -> library_cursor (@select_Enumerator U E I F T C)
| lc_until (T E F : Type) (I : Enumerator T E) (C : Callable F T bool)
    (P : PureCallable F T bool) :
    library_cursor I -> library_cursor (@until_Enumerator T E I F C)
| lc_where (T E F : Type) (I : Enumerator T E) (C : Callable F T bool)
    (P : PureCallable F T bool) :
    library_cursor I -> library_cursor (@where_Enumerator T E I F C).

Fixpoint library_lawful (T E : Type) (I : Enumerator T E) (c : library_cursor I)
  : @Lawful T E I :=
  match c in @library_cursor T' E' I' return @Lawful T' E' I' with
  | lc_range T => range_Lawful T
  | lc_take c' => @take_Lawful _ _ _ (library_lawful c')
  | lc_drop c' => @drop_Lawful _ _ _ (library_lawful c')
  | @lc_select _ _ _ _ _ _ P c' => @select_Lawful _ _ _ (library_lawful c') _ _ _ P
  | @lc_until _ _ _ _ _ P c' => @until_Lawful _ _ _ (library_lawful c') _ _ P
  | @lc_where _ _ _ _ _ P c' => @where_Lawful _ _ _ (library_lawful c') _ _ P
  end.

(** The well-formed states of a library cursor: the positions of the
    source are ordered and inside the collection, and a cleared select
    flag or a set until flag-of-flag comes with an assigned value. *)
Definition library_wf (T E : Type) (I : Enumerator T E) (c : library_cursor I)
  : E -> Prop :=
  @wf T E I (library_lawful c).

(** ** Sequences of calls on a cursor *)

Inductive method : Type := Valid | Current | Advance.

Inductive observation (T : Type) : Type :=
| Validity (b : bool)
| Value (x : T)
| Advanced.

Arguments Validity {T} b.
Arguments Value {T} x.
Arguments Advanced {T}.

Fixpoint run `{Enumerator T E} (fuel : nat) (ms : list method) (e : E)
  : outcome (list (observation T) * E) :=
  match ms with
  | [] => Done ([], e)
  | Valid :: ms' =>
      '(b, e1) <- to_bool e ;;
      '(obs, e2) <- run fuel ms' e1 ;;
      Done (Validity b :: obs, e2)
  | Current :: ms' =>
      '(x, e1) <- deref e ;;
      '(obs, e2) <- run fuel ms' e1 ;;
      Done (Value x :: obs, e2)
  | Advance :: ms' =>
      e1 <- incr fuel e ;;
      '(obs, e2) <- run fuel ms' e1 ;;
      Done (Advanced :: obs, e2)
  end.

Definition is_advance (m : method) : bool :=
  match m with Advance => true | _ => false end.

Definition reports_valid {T} (o : observation T) : bool :=
  match o with Validity true => true | _ => false end.

(** No conversion to bool in [obs] gave true. *)
Definition all_invalid {T} (obs : list (observation T)) : bool :=
  forallb (fun o => negb (reports_valid o)) obs.

(** No conversion to bool gave true after one that gave false. *)
Fixpoint never_revived {T} (obs : list (observation T)) : bool :=
  match obs with
  | [] => true
  | Validity false :: obs' => all_invalid obs'
  | _ :: obs' => never_revived obs'
  end.

(** [n] increments in a row. *)
Fixpoint advance_n `{Enumerator T E} (fuel n : nat) (e : E) : outcome E :=
  match n with
  | O => Done e
  | S n' => e1 <- incr fuel e ;; advance_n fuel n' e1
  end.

(** The cursor is invalid, or it is valid and its current element is
    accepted by [p]. *)
Definition invalid_or_accepted `{Enumerator T E} (p : T -> bool) (e : E) : bool :=
  match to_bool e with
  | Done (true, e1) =>
      match deref e1 with
      | Done (x, _) => p x
      | _ => false
      end
  | Done (false, _) => true
  | _ => false
  end.

(** ** Lists: prefixes, suffixes and filters *)

Lemma firstn_min_length {A} (n : nat) (l : list A) :
  firstn (Nat.min n (length l)) l = firstn n l.
Proof.
  destruct (Nat.le_ge_cases n (length l)) as [Hle|Hge].
  - now rewrite Nat.min_l.
  - rewrite Nat.min_r by assumption. now rewrite !firstn_all2 by lia.
Qed.

Lemma skipn_min_length {A} (n : nat) (l : list A) :
  skipn (Nat.min n (length l)) l = skipn n l.
Proof.
  destruct (Nat.le_ge_cases n (length l)) as [Hle|Hge].
  - now rewrite Nat.min_l.
  - rewrite Nat.min_r by assumption. now rewrite !skipn_all2 by lia.
Qed.

Lemma before_first_from_first {A} (p : A -> bool) l :
  before_first p l ++ from_first p l = l.
Proof.
  induction l as [|x l IH]; simpl; [reflexivity|].
  destruct (p x); simpl; [reflexivity | now rewrite IH].
Qed.

Lemma before_first_rejected {A} (p : A -> bool) l x :
  In x (before_first p l) -> p x = false.
Proof.
  induction l as [|y l IH]; simpl; [tauto|].
  destruct (p y) eqn:Hy; simpl; [tauto|].
  intros [<-|Hin]; auto.
Qed.

Lemma before_first_app {A} (p : A -> bool) pre x post :
  (forall y, In y pre -> p y = false) -> p x = true ->
  before_first p (pre ++ x :: post) = pre.
Proof.
  intros Hpre Hx. induction pre as [|y pre IH]; simpl.
  - now rewrite Hx.
  - rewrite (Hpre y) by (now left). f_equal. apply IH. intros z Hz. apply Hpre. now right.
Qed.

Lemma filter_filter {A} (p q : A -> bool) l :
  filter q (filter p l) = filter (fun x => p x && q x) l.
Proof.
  induction l as [|x l IH]; simpl; [reflexivity|].
  destruct (p x); simpl; [|exact IH].
  destruct (q x); [now rewrite IH | exact IH].
Qed.

(** ** The drop cursor forwards *)

Lemma drop_to_vector_loop_forward `{Enumerator T E} fuel : forall gas (p : E) result,
  to_vector_loop gas fuel {| drop_parent_ := p |} result
  = ('(l, p') <- to_vector_loop gas fuel p result ;; Done (l, {| drop_parent_ := p' |})).
Proof.
  induction gas as [|gas IH]; intros p result; simpl; unfold drop_to_bool; simpl.
  - destruct (to_bool p) as [[[|] p1]| |]; reflexivity.
  - destruct (to_bool p) as [[[|] p1]| |]; simpl; try reflexivity.
    unfold drop_deref; simpl.
    destruct (deref p1) as [[x p2]| |]; simpl; try reflexivity.
    unfold drop_incr; simpl.
    destruct (incr fuel p2) as [p3| |]; simpl; try reflexivity.
    apply IH.
Qed.

Lemma drop_loop_range {T} (xs : list T) fuel (k : Z) : forall gas i b,
  b <= length xs -> length xs - b <= gas ->
  drop_loop gas fuel k i (from_range xs b (length xs))
  = Done (from_range xs (Nat.min (b + Z.to_nat (k - i)) (length xs)) (length xs)).
Proof.
  induction gas as [|gas IH]; intros i b Hb Hgas; simpl; unfold range_to_bool; simpl.
  - destruct (Z.ltb_spec i k) as [Hlt|Hge].
    + replace b with (length xs) by lia. rewrite Nat.eqb_refl. simpl.
      now rewrite Nat.min_r by lia.
    + replace (Z.to_nat (k - i)) with 0 by lia.
      now rewrite Nat.add_0_r, Nat.min_l by lia.
  - destruct (Z.ltb_spec i k) as [Hlt|Hge].
    + destruct (Nat.eqb_spec b (length xs)) as [Heq|Hne]; simpl.
      * subst b. now rewrite Nat.min_r by lia.
      * unfold range_incr; simpl.
        assert (Hlt' : b < length xs) by lia.
        apply Nat.ltb_lt in Hlt'. rewrite Hlt'. simpl.
        change {| coll := xs; begin_ := S b; end_ := length xs |}
          with (from_range xs (S b) (length xs)).
        rewrite IH by (apply Nat.ltb_lt in Hlt'; lia).
        do 2 f_equal. lia.
    + replace (Z.to_nat (k - i)) with 0 by lia.
      now rewrite Nat.add_0_r, Nat.min_l by lia.
Qed.

(** ** Specification of the combinators *)

(** C2: for every finite sequence [xs] and count [k >= 0], collecting
    [from(xs).take(k)] returns the first [min(k, |xs|)] elements of [xs],
    in their original order. *)
Theorem take_to_vector_prefix (T : Type) (xs : list T) (k : Z) (fuel : nat) :
  (0 <= k)%Z -> length xs < fuel ->
  result_of (to_vector fuel (take (from xs) k))
  = Some (firstn (Nat.min (Z.to_nat k) (length xs)) xs).
Proof.
  intros _ Hfuel. destruct (from_law xs) as (Hwf & Hd & Hn).
  destruct (take_ctor_law _ k Hwf) as (Hwf' & Hd' & Hn').
  destruct (to_vector_law (fuel := fuel) _ Hwf') as (e' & -> & _);
    [rewrite Hn', Hn; lia|].
  unfold result_of. now rewrite firstn_min_length, Hd', Hd.
Qed.

Lemma take_to_vector_prefix_witness :
  result_of (to_vector 4 (take (from [10; 20; 30]%Z) 2)) = Some [10; 20]%Z.
Proof.
  apply (@take_to_vector_prefix Z [10; 20; 30]%Z 2 4); simpl; lia.
Defined.

(** C3: for every finite sequence [xs] and count [k >= 0], the constructor
    of [from(xs).drop(k)] returns with the upstream moved [min(k, |xs|)]
    positions on (up to [k] increments, or until it is exhausted);
    collecting the cursor returns the elements of [xs] after that prefix,
    in order; and conversion to bool, dereference and increment of a drop
    cursor are those of its upstream. *)
Theorem drop_skips_at_construction (T : Type) (xs : list T) (k : Z) (fuel : nat) :
  (0 <= k)%Z -> length xs < fuel ->
  drop fuel (from xs) k
  = Done {| drop_parent_ :=
              from_range xs (Nat.min (Z.to_nat k) (length xs)) (length xs) |}
  /\ result_of (d <- drop fuel (from xs) k ;; to_vector fuel d)
     = Some (skipn (Nat.min (Z.to_nat k) (length xs)) xs)
  /\ (forall (E : Type) (I : Enumerator T E) (d : drop_enumerator E),
         to_bool d = ('(b, p) <- to_bool (drop_parent_ d) ;;
                      Done (b, {| drop_parent_ := p |}))
         /\ deref d = ('(x, p) <- deref (drop_parent_ d) ;;
                       Done (x, {| drop_parent_ := p |}))
         /\ incr fuel d = (p <- incr fuel (drop_parent_ d) ;;
                           Done {| drop_parent_ := p |})).
Proof.
  intros _ Hfuel.
  assert (Hctor : drop fuel (from xs) k
                  = Done {| drop_parent_ :=
                       from_range xs (Nat.min (Z.to_nat k) (length xs)) (length xs) |}).
  { unfold drop, from. rewrite drop_loop_range by lia. simpl.
    now rewrite Z.sub_0_r. }
  split; [exact Hctor|]. split; [|intros E I d; repeat split].
  rewrite Hctor. simpl bind. unfold to_vector.
  rewrite drop_to_vector_loop_forward.
  set (r := from_range xs (Nat.min (Z.to_nat k) (length xs)) (length xs)).
  assert (Hwf : wf r) by (unfold r; simpl; unfold range_wf; simpl; lia).
  assert (Hd : denote r = skipn (Nat.min (Z.to_nat k) (length xs)) xs).
  { unfold r; simpl. unfold range_denote; simpl.
    rewrite firstn_all2; [reflexivity|]. rewrite length_skipn. lia. }
  destruct (to_vector_law (fuel := fuel) _ Hwf) as (e' & He & _).
  { unfold r; simpl. unfold range_need; simpl. lia. }
  unfold to_vector in He. rewrite He. unfold bind, result_of. now rewrite Hd.
Qed.

Lemma drop_skips_at_construction_witness :
  drop 4 (from [10; 20; 30]%Z) 2 = Done {| drop_parent_ := from_range [10; 20; 30]%Z 2 3 |}
  /\ result_of (d <- drop 4 (from [10; 20; 30]%Z) 2 ;; to_vector 4 d) = Some [30]%Z.
Proof.
  destruct (@drop_skips_at_construction Z [10; 20; 30]%Z 2 4) as (Hc & Hv & _);
    [lia | simpl; lia |].
  split; [exact Hc | exact Hv].
Defined.

(** C5: for every finite sequence [xs] and predicate [p], collecting
    [from(xs).until(p)] returns the elements of [xs] strictly before the
    first one that satisfies [p]: the result is a prefix of [xs] none of
    whose elements satisfies [p], and what follows it in [xs] is empty or
    starts with an element that satisfies [p]. *)
Theorem until_to_vector_prefix (T : Type) (xs : list T) (p : T -> bool) (fuel : nat) :
  length xs < fuel ->
  result_of (to_vector fuel (until (from xs) p)) = Some (before_first p xs)
  /\ before_first p xs ++ from_first p xs = xs
  /\ (forall x, In x (before_first p xs) -> p x = false)
  /\ head_accepted p (from_first p xs) = true.
Proof.
  intros Hfuel. destruct (from_law xs) as (Hwf & Hd & Hn).
  destruct (until_ctor_law _ p Hwf) as (Hwf' & Hd' & Hn').
  destruct (to_vector_law (fuel := fuel) _ Hwf') as (e' & -> & _);
    [rewrite Hn', Hn; lia|].
  unfold result_of. rewrite Hd', Hd. cbn [fn function_Pure].
  split; [reflexivity|]. split; [apply before_first_from_first|].
  split; [apply before_first_rejected | apply head_accepted_from_first].
Qed.

Lemma until_to_vector_prefix_witness :
  result_of (to_vector 7 (until (from [1; 2; 3; 0; 4; 5]%Z) (Z.eqb 0))) = Some [1; 2; 3]%Z.
Proof.
  apply (@until_to_vector_prefix Z [1; 2; 3; 0; 4; 5]%Z (Z.eqb 0) 7). simpl; lia.
Defined.

(** C7: for every finite sequence [xs] and predicates [p1], [p2],
    collecting [from(xs).where(p1).where(p2)] returns the same collection
    as collecting [from(xs).where(x => p1(x) && p2(x))]. *)
Theorem where_where_is_where_and (T : Type) (xs : list T) (p1 p2 : T -> bool)
    (fuel : nat) :
  length xs < fuel ->
  result_of (w1 <- where_ fuel (from xs) p1 ;;
             w2 <- where_ fuel w1 p2 ;;
             to_vector fuel w2)
  = result_of (w <- where_ fuel (from xs) (fun x => p1 x && p2 x) ;;
               to_vector fuel w)
  /\ result_of (w <- where_ fuel (from xs) (fun x => p1 x && p2 x) ;;
                to_vector fuel w)
     = Some (filter (fun x => p1 x && p2 x) xs).
Proof.
  intros Hfuel. destruct (from_law xs) as (Hwf & Hd & Hn).
  destruct (where_ctor_law (fuel := fuel) _ p1 Hwf)
    as (w1 & -> & Hwf1 & Hd1 & Hn1 & _); [lia|]. cbn [bind].
  destruct (where_ctor_law (fuel := fuel) _ p2 Hwf1)
    as (w2 & -> & Hwf2 & Hd2 & Hn2 & _); [lia|]. cbn [bind].
  destruct (to_vector_law (fuel := fuel) _ Hwf2) as (e2 & -> & _); [lia|].
  destruct (where_ctor_law (fuel := fuel) _ (fun x => p1 x && p2 x) Hwf)
    as (w & -> & Hwf3 & Hd3 & Hn3 & _); [lia|]. cbn [bind].
  destruct (to_vector_law (fuel := fuel) _ Hwf3) as (e3 & -> & _); [lia|].
  unfold result_of. rewrite Hd2, Hd1, Hd3, Hd. cbn [fn function_Pure].
  now rewrite filter_filter.
Qed.

Lemma where_where_is_where_and_witness :
  result_of (w1 <- where_ 7 (from [1; 2; 3; 4; 5; 6]%Z) Z.even ;;
             w2 <- where_ 7 w1 (Z.ltb 3) ;;
             to_vector 7 w2)
  = result_of (w <- where_ 7 (from [1; 2; 3; 4; 5; 6]%Z)
                      (fun x => Z.even x && Z.ltb 3 x) ;;
               to_vector 7 w).
Proof.
  apply (@where_where_is_where_and Z [1; 2; 3; 4; 5; 6]%Z Z.even (Z.ltb 3) 7).
  simpl; lia.
Defined.

(** C8: on any upstream cursor, [take(0)] is invalid from construction,
    and for every [n < 0], [take(n)] behaves as [take(0)]: it is invalid
    from construction and collecting it returns an empty collection,
    without touching the upstream. *)
Theorem take_nonpositive_is_empty (T E : Type) (I : Enumerator T E) (e : E) (n : Z)
    (fuel : nat) :
  (n <= 0)%Z ->
  to_bool (take e n) = Done (false, take e n)
  /\ to_vector fuel (take e n) = Done ([], take e n)
  /\ result_of (to_bool (take e n)) = result_of (to_bool (take e 0))
  /\ result_of (to_vector fuel (take e n)) = result_of (to_vector fuel (take e 0)).
Proof.
  intros Hn.
  assert (Hb : forall m, (m <= 0)%Z -> to_bool (take e m) = Done (false, take e m)).
  { intros m Hm. simpl. unfold take_to_bool. simpl.
    destruct (Z.ltb_spec 0 m); [lia | reflexivity]. }
  assert (Hv : forall m, (m <= 0)%Z -> to_vector fuel (take e m) = Done ([], take e m)).
  { intros m Hm. unfold to_vector.
    destruct fuel; unfold to_vector_loop; rewrite (Hb m Hm); reflexivity. }
  rewrite (Hb n Hn), (Hb 0%Z ltac:(lia)), (Hv n Hn), (Hv 0%Z ltac:(lia)).
  repeat split.
Qed.

Lemma take_nonpositive_is_empty_witness :
  to_vector 0 (take (from [1; 2]%Z) (-3)) = Done ([], take (from [1; 2]%Z) (-3)).
Proof.
  apply (@take_nonpositive_is_empty Z _ _ (from [1; 2]%Z) (-3)%Z 0). lia.
Defined.

(** C10: for every [n < 0], on any upstream cursor, [drop(n)] is [drop(0)]:
    the constructor does not touch the upstream, and the cursor presents
    the upstream as it is (collecting it is collecting the upstream). *)
Theorem drop_negative_is_passthrough (T E : Type) (I : Enumerator T E) (e : E) (n : Z)
    (fuel : nat) :
  (n < 0)%Z ->
  drop fuel e n = drop fuel e 0
  /\ drop fuel e n = Done {| drop_parent_ := e |}
  /\ (d <- drop fuel e n ;; to_vector fuel d)
     = ('(l, p) <- to_vector fuel e ;; Done (l, {| drop_parent_ := p |})).
Proof.
  intros Hn.
  assert (Hc : forall m, (m <= 0)%Z -> drop fuel e m = Done {| drop_parent_ := e |}).
  { intros m Hm. unfold drop.
    destruct fuel; simpl; destruct (Z.ltb_spec 0 m); try lia; reflexivity. }
  rewrite (Hc n ltac:(lia)), (Hc 0%Z ltac:(lia)).
  repeat split. simpl bind at 1. apply drop_to_vector_loop_forward.
Qed.

Lemma drop_negative_is_passthrough_witness :
  result_of (d <- drop 4 (from [1; 2; 3]%Z) (-2) ;; to_vector 4 d) = Some [1; 2; 3]%Z.
Proof.
  destruct (@drop_negative_is_passthrough Z _ _ (from [1; 2; 3]%Z) (-2)%Z 4)
    as (_ & _ & ->); [lia | reflexivity].
Defined.

(** ** Select: one invocation per element *)

Lemma select_counted_loop `{Lawful U E} (T : Type) fuel :
  forall gas (e : E) (c : counted U T) (v : option T) (result : list T),
  wf e -> length (denote e) <= gas -> need e <= fuel ->
  exists s',
    to_vector_loop gas fuel
      {| select_parent_ := e; value_ := v; select_func_ := c; select_flag_ := true |}
      result
    = Done (result ++ map (cnt_fun c) (denote e), s')
    /\ calls (select_func_ s') = calls c + length (denote e)
    /\ cnt_fun (select_func_ s') = cnt_fun c.
Proof.
  induction gas as [|gas IH]; intros e c v result Hwf Hlen Hfuel.
  - destruct (denote e) as [|x r] eqn:Hd; [|simpl in Hlen; lia].
    simpl. unfold select_to_bool. simpl.
    destruct (to_bool_law _ Hwf) as (e1 & -> & Hwf1 & Hd1 & Hn1).
    rewrite Hd. simpl. eexists; split; [now rewrite app_nil_r|].
    simpl. split; [lia | reflexivity].
  - simpl. unfold select_to_bool. simpl.
    destruct (to_bool_law _ Hwf) as (e1 & -> & Hwf1 & Hd1 & Hn1).
    destruct (denote e) as [|x r] eqn:Hd; simpl.
    + eexists; split; [now rewrite app_nil_r|]. simpl. split; [lia | reflexivity].
    + unfold select_deref. simpl.
      destruct (deref_law _ Hwf1 Hd1) as (e2 & He2). rewrite He2. simpl.
      destruct (deref_keep _ Hwf1 He2) as (Hwf2 & Hd2 & Hn2).
      rewrite Hd1 in Hd2. unfold select_incr. simpl.
      destruct (incr_law (fuel := fuel) _ Hwf2 Hd2 ltac:(lia))
        as (e3 & -> & Hwf3 & Hd3 & Hn3). simpl.
      destruct (IH e3 {| cnt_fun := cnt_fun c; calls := S (calls c) |}
                  (Some (cnt_fun c x)) (result ++ [cnt_fun c x]) Hwf3)
        as (s' & Hs' & Hcalls & Hfun);
        [rewrite Hd3; simpl in Hlen; lia | lia |].
      exists s'. rewrite Hs', Hd3, <- app_assoc. rewrite Hd3 in Hcalls. simpl in *.
      repeat split; auto. lia.
Qed.

(** C4: for every finite sequence [xs] and pure function [f], collecting
    [from(xs).select(f)] returns [f] applied element-wise to [xs], same
    length and order; [f] is invoked exactly once per element (a counting
    wrapper of [f] ends with [|xs|] invocations); a dereference that
    follows a dereference with no increment in between returns the cached
    value and leaves the whole cursor, function object included, as it is;
    and the select cursor converts to bool as its upstream does. *)
Theorem select_to_vector_map (U T : Type) (xs : list U) (f : U -> T) (fuel : nat) :
  length xs < fuel ->
  result_of (to_vector fuel (select (from xs) f)) = Some (map f xs)
  /\ length (map f xs) = length xs
  /\ (exists s', to_vector fuel (select (from xs) {| cnt_fun := f; calls := 0 |})
                 = Done (map f xs, s')
                 /\ calls (select_func_ s') = length xs)
  /\ (forall (E F : Type) (I : Enumerator U E) (C : Callable F U T)
             (s s1 : select_enumerator T E F) (v : T),
         deref s = Done (v, s1) -> deref s1 = Done (v, s1))
  /\ (forall (E F : Type) (I : Enumerator U E) (C : Callable F U T)
             (s : select_enumerator T E F),
         result_of (to_bool s) = result_of (to_bool (select_parent_ s))).
Proof.
  intros Hfuel. destruct (from_law xs) as (Hwf & Hd & Hn).
  split; [|split; [apply length_map|split; [|split]]].
  - destruct (select_ctor_law _ f Hwf) as (Hwf' & Hd' & Hn').
    destruct (to_vector_law (fuel := fuel) _ Hwf') as (e' & -> & _);
      [rewrite Hn', Hn; lia|].
    unfold result_of. now rewrite Hd', Hd.
  - destruct (@select_counted_loop _ _ _ _ T fuel fuel (from xs)
                {| cnt_fun := f; calls := 0 |} None [] Hwf)
      as (s' & Hs' & Hcalls & _); [rewrite Hd; lia | lia |].
    exists s'. rewrite Hd in *. split; [exact Hs' | exact Hcalls].
  - intros E F I C s s1 v. simpl. unfold select_deref.
    destruct (select_flag_ s) eqn:Hflag.
    + destruct (deref (select_parent_ s)) as [[u p]| |]; simpl; try discriminate.
      destruct (call (select_func_ s) u) as [w g].
      intros Heq; inversion Heq; subst. reflexivity.
    + destruct (value_ s) as [w|] eqn:Hval; [|discriminate].
      intros Heq; inversion Heq; subst. now rewrite Hflag, Hval.
  - intros E F I C s. simpl. unfold select_to_bool.
    now destruct (to_bool (select_parent_ s)) as [[b p]| |].
Qed.

Lemma select_to_vector_map_witness :
  result_of (to_vector 4 (select (from [1; 2; 3]%Z) (fun x => x * 10)%Z))
  = Some [10; 20; 30]%Z.
Proof.
  apply (@select_to_vector_map Z Z [1; 2; 3]%Z (fun x => x * 10)%Z 4). simpl; lia.
Defined.

(** ** Where: the current element is accepted *)

Lemma where_skip_range_keeps {T} (fuel : nat) (f : T -> bool) :
  forall gas (r : range_enumerator T) w,
  where_skip gas fuel r f = Done w ->
  coll (where_parent_ w) = coll r /\ end_ (where_parent_ w) = end_ r
  /\ where_func_ w = f.
Proof.
  induction gas as [|gas IH]; intros r w; simpl; unfold range_to_bool; simpl.
  - destruct (negb (begin_ r =? end_ r)); simpl.
    + unfold range_deref. destruct (nth_error (coll r) (begin_ r)); simpl; try discriminate.
      destruct (f t); simpl; try discriminate.
      intros Heq; inversion Heq; subst; auto.
    + intros Heq; inversion Heq; subst; auto.
  - destruct (negb (begin_ r =? end_ r)); simpl.
    + unfold range_deref. destruct (nth_error (coll r) (begin_ r)); simpl; try discriminate.
      destruct (f t); simpl.
      * intros Heq; inversion Heq; subst; auto.
      * unfold range_incr. destruct (begin_ r <? length (coll r)); simpl; try discriminate.
        intros Hw. apply IH in Hw. simpl in Hw. exact Hw.
    + intros Heq; inversion Heq; subst; auto.
Qed.

(** What holds of [from(xs).where(p)] after its construction and after
    each call on it. *)
Definition where_from_inv {T} (xs : list T) (p : T -> bool)
    (w : where_enumerator (range_enumerator T) (T -> bool)) : Prop :=
  coll (where_parent_ w) = xs
  /\ end_ (where_parent_ w) = length xs
  /\ begin_ (where_parent_ w) <= length xs
  /\ where_func_ w = p
  /\ head_accepted p (denote (where_parent_ w)) = true.

Lemma where_from_inv_accepted {T} (xs : list T) p w :
  where_from_inv xs p w -> invalid_or_accepted p w = true.
Proof.
  destruct w as [r f]. intros (Hc & He & Hb & Hf & Hh). simpl in *.
  unfold invalid_or_accepted. simpl. unfold where_to_bool. simpl.
  unfold range_to_bool. simpl.
  destruct (Nat.eqb_spec (begin_ r) (end_ r)) as [Heq|Hne]; simpl; [reflexivity|].
  assert (Hwf : range_wf r) by (unfold range_wf; rewrite Hc; lia).
  destruct (range_denote_cons Hwf Hne) as (x & Hx & Hd).
  unfold where_deref. simpl. unfold range_deref. rewrite Hx. simpl.
  rewrite Hd in Hh. exact Hh.
Qed.

Lemma where_from_inv_ctor {T} (xs : list T) p fuel :
  length xs < fuel ->
  exists w, where_ fuel (from xs) p = Done w /\ where_from_inv xs p w.
Proof.
  intros Hfuel. destruct (from_law xs) as (Hwf & Hd & Hn).
  destruct (where_ctor_law (fuel := fuel) _ p Hwf)
    as (w & Hw & Hwf1 & Hd1 & Hn1 & Hh); [lia|].
  exists w. split; [exact Hw|].
  destruct (where_skip_range_keeps _ _ _ _ Hw) as (Hc & He & Hf).
  destruct Hwf1 as [Hb He']. simpl in *.
  unfold where_from_inv. rewrite Hc, He. repeat split; auto. lia.
Qed.

Lemma where_from_inv_incr {T} (xs : list T) p fuel w w' :
  length xs < fuel -> where_from_inv xs p w -> incr fuel w = Done w' ->
  where_from_inv xs p w'.
Proof.
  intros Hfuel (Hc & He & Hb & Hf & Hh). simpl. unfold where_incr. simpl.
  unfold range_incr. rewrite Hc.
  destruct (Nat.ltb_spec (begin_ (where_parent_ w)) (length xs)) as [Hlt|Hge];
    simpl; [|discriminate].
  intros Hw.
  set (r1 := {| coll := xs; begin_ := S (begin_ (where_parent_ w));
                end_ := end_ (where_parent_ w) |}) in *.
  assert (Hwf1 : wf r1) by (unfold r1; simpl; unfold range_wf; simpl; lia).
  pose proof (need_denote _ Hwf1) as Hnd.
  assert (Hneed : need r1 <= fuel) by (unfold r1; simpl; unfold range_need; simpl; lia).
  destruct (@where_skip_law _ _ _ _ _ _ _ fuel fuel r1 (where_func_ w) Hwf1)
    as (w2 & Hw2 & Hwf2 & Hd2 & Hn2 & Hf2); [lia..|].
  rewrite Hw in Hw2. inversion Hw2; subst w2.
  destruct (where_skip_range_keeps _ _ _ _ Hw) as (Hc' & He' & Hf').
  destruct Hwf2 as [Hb2 He2]. simpl in *.
  unfold where_from_inv. simpl.
  split; [exact Hc'|]. split; [congruence|]. split; [lia|]. split; [congruence|].
  rewrite Hd2, Hf. apply head_accepted_from_first.
Qed.

Lemma where_from_inv_run {T} (xs : list T) p fuel :
  length xs < fuel ->
  forall ms w obs w',
  where_from_inv xs p w -> run fuel ms w = Done (obs, w') ->
  where_from_inv xs p w'.
Proof.
  intros Hfuel. induction ms as [|[| |] ms IH]; intros w obs w' Hinv; simpl.
  - intros Heq; inversion Heq; subst; exact Hinv.
  - destruct w as [r f]. unfold where_to_bool. simpl.
    destruct (run fuel ms {| where_parent_ := r; where_func_ := f |})
      as [[obs1 w1]| |] eqn:Hrun; simpl; try discriminate.
    intros Heq; inversion Heq; subst. exact (IH _ _ _ Hinv Hrun).
  - destruct w as [r f]. unfold where_deref. simpl. unfold range_deref.
    destruct (nth_error (coll r) (begin_ r)); simpl; try discriminate.
    destruct (run fuel ms {| where_parent_ := r; where_func_ := f |})
      as [[obs1 w1]| |] eqn:Hrun; simpl; try discriminate.
    intros Heq; inversion Heq; subst. exact (IH _ _ _ Hinv Hrun).
  - destruct (where_incr fuel w) as [w1| |] eqn:Hincr; simpl; try discriminate.
    destruct (run fuel ms w1) as [[obs1 w2]| |] eqn:Hrun; simpl; try discriminate.
    intros Heq; inversion Heq; subst.
    exact (IH _ _ _ (where_from_inv_incr Hfuel Hinv Hincr) Hrun).
Qed.

(** C6: for every finite sequence [xs] and predicate [p], collecting
    [from(xs).where(p)] returns exactly the elements of [xs] that satisfy
    [p], in their original order; and after the construction of the where
    cursor and after every call on it ([ms] is any sequence of
    conversions to bool, dereferences and increments that returns), the
    cursor is invalid or its current element satisfies [p]. *)
Theorem where_to_vector_filter (T : Type) (xs : list T) (p : T -> bool) (fuel : nat) :
  length xs < fuel ->
  result_of (w <- where_ fuel (from xs) p ;; to_vector fuel w) = Some (filter p xs)
  /\ (exists w, where_ fuel (from xs) p = Done w /\ invalid_or_accepted p w = true)
  /\ (forall ms obs w,
         (w0 <- where_ fuel (from xs) p ;; run fuel ms w0) = Done (obs, w) ->
         invalid_or_accepted p w = true).
Proof.
  intros Hfuel. destruct (from_law xs) as (Hwf & Hd & Hn).
  destruct (where_from_inv_ctor xs p Hfuel) as (w0 & Hw0 & Hinv).
  split; [|split].
  - destruct (where_ctor_law (fuel := fuel) _ p Hwf)
      as (w & -> & Hwf1 & Hd1 & Hn1 & _); [lia|]. cbn [bind].
    destruct (to_vector_law (fuel := fuel) _ Hwf1) as (e' & -> & _); [lia|].
    unfold result_of. now rewrite Hd1, Hd.
  - exists w0. split; [exact Hw0 | exact (where_from_inv_accepted Hinv)].
  - intros ms obs w. rewrite Hw0. cbn [bind]. intros Hrun.
    exact (where_from_inv_accepted (where_from_inv_run Hfuel _ Hinv Hrun)).
Qed.

Lemma where_to_vector_filter_witness :
  result_of (w <- where_ 7 (from [1; 2; 3; 4; 5; 6]%Z) Z.even ;; to_vector 7 w)
  = Some [2; 4; 6]%Z.
Proof.
  apply (@where_to_vector_filter Z [1; 2; 3; 4; 5; 6]%Z Z.even 7). simpl; lia.
Defined.

(** ** Until: where the upstream is left *)

Lemma until_loop_stops `{Lawful T E} (p : T -> bool) (x : T) (post : list T) fuel :
  p x = true ->
  forall pre gas (e : E) (fl : option bool) (result : list T),
  wf e -> denote e = pre ++ x :: post ->
  (forall y, In y pre -> p y = false) ->
  length pre <= gas -> need e <= fuel ->
  exists u',
    to_vector_loop gas fuel
      {| until_parent_ := e; until_func_ := p; until_flag_ := fl;
         flag_of_flag_ := false |} result
    = Done (result ++ pre, u')
    /\ wf (until_parent_ u') /\ denote (until_parent_ u') = x :: post.
Proof.
  intros Hx. induction pre as [|y pre IH]; intros gas e fl result Hwf Hd Hpre Hgas Hfuel.
  - simpl in Hd.
    destruct (to_bool_law _ Hwf) as (e1 & He1 & Hwf1 & Hd1 & Hn1).
    rewrite Hd in He1, Hd1. simpl in He1.
    destruct (deref_law _ Hwf1 Hd1) as (e2 & He2).
    destruct (deref_keep _ Hwf1 He2) as (Hwf2 & Hd2 & Hn2).
    exists {| until_parent_ := e2; until_func_ := p; until_flag_ := Some false;
              flag_of_flag_ := true |}.
    split; [|split; [exact Hwf2 | simpl; congruence]].
    destruct gas; simpl; unfold until_to_bool; simpl;
      rewrite He1; simpl; rewrite He2; simpl; rewrite Hx; simpl;
      now rewrite app_nil_r.
  - destruct gas as [|gas]; [simpl in Hgas; lia|].
    simpl in Hd.
    destruct (to_bool_law _ Hwf) as (e1 & He1 & Hwf1 & Hd1 & Hn1).
    rewrite Hd in He1, Hd1. simpl in He1.
    destruct (deref_law _ Hwf1 Hd1) as (e2 & He2).
    destruct (deref_keep _ Hwf1 He2) as (Hwf2 & Hd2 & Hn2). rewrite Hd1 in Hd2.
    destruct (deref_law _ Hwf2 Hd2) as (e3 & He3).
    destruct (deref_keep _ Hwf2 He3) as (Hwf3 & Hd3 & Hn3). rewrite Hd2 in Hd3.
    destruct (incr_law (fuel := fuel) _ Hwf3 Hd3 ltac:(lia))
      as (e4 & He4 & Hwf4 & Hd4 & Hn4).
    destruct (IH gas e4 (Some true) (result ++ [y]) Hwf4 Hd4) as (u' & Hu' & Hwf' & Hd');
      [intros z Hz; apply Hpre; now right | simpl in Hgas; lia | lia |].
    exists u'. split; [|split; assumption].
    simpl. unfold until_to_bool. simpl. rewrite He1. simpl. rewrite He2. simpl.
    rewrite (Hpre y) by (now left). simpl.
    unfold until_deref. simpl. rewrite He3. simpl.
    unfold until_incr. simpl. rewrite He4. simpl.
    rewrite Hu', <- app_assoc. reflexivity.
Qed.

(** C9: when the upstream presents [pre ++ x :: post], no element of [pre]
    satisfies the predicate and [x] does, collecting the until cursor
    returns [pre] and leaves the upstream cursor valid, with [x] as its
    current element and [x :: post] still to present: the until cursor
    has not moved the upstream past the element that stopped it. *)
Theorem until_leaves_upstream_at_stop (T E : Type) (I : Enumerator T E)
    (L : @Lawful T E I) (e : E) (p : T -> bool) (pre post : list T) (x : T)
    (fuel : nat) :
  wf e -> denote e = pre ++ x :: post ->
  (forall y, In y pre -> p y = false) -> p x = true ->
  need e <= fuel ->
  exists u' e1 e2,
    to_vector fuel (until e p) = Done (pre, u')
    /\ to_bool (until_parent_ u') = Done (true, e1)
    /\ deref e1 = Done (x, e2)
    /\ result_of (to_vector fuel (until_parent_ u')) = Some (x :: post).
Proof.
  intros Hwf Hd Hpre Hx Hfuel.
  pose proof (need_denote _ Hwf) as Hnd. rewrite Hd, length_app in Hnd. simpl in Hnd.
  destruct (@until_loop_stops T E I L p x post fuel Hx pre fuel e None [] Hwf Hd Hpre)
    as (u' & Hu' & Hwf' & Hd'); [lia | lia |].
  destruct (to_bool_law _ Hwf') as (e1 & He1 & Hwf1 & Hd1 & Hn1).
  rewrite Hd' in He1, Hd1. simpl in He1.
  destruct (deref_law _ Hwf1 Hd1) as (e2 & He2).
  assert (Hneed : need (until_parent_ u') <= fuel).
  { destruct (to_vector_law (fuel := fuel) (until e p)) as (u2 & Hu2 & _ & _ & Hn2);
      [split; [exact Hwf | discriminate] | exact Hfuel |].
    unfold to_vector, until in Hu2. rewrite Hu' in Hu2. inversion Hu2; subst u2.
    simpl in Hn2. unfold until_need in Hn2. simpl in Hn2. lia. }
  destruct (to_vector_law (fuel := fuel) _ Hwf' Hneed) as (e3 & He3 & _).
  exists u', e1, e2. split; [exact Hu'|]. split; [exact He1|]. split; [exact He2|].
  rewrite He3. unfold result_of. now rewrite Hd'.
Qed.

Lemma until_leaves_upstream_at_stop_witness :
  exists u' e1 e2,
    to_vector 7 (until (from [1; 2; 3; 0; 4; 5]%Z) (Z.eqb 0)) = Done ([1; 2; 3]%Z, u')
    /\ to_bool (until_parent_ u') = Done (true, e1)
    /\ deref e1 = Done (0%Z, e2)
    /\ result_of (to_vector 7 (until_parent_ u')) = Some [0; 4; 5]%Z.
Proof.
  apply (@until_leaves_upstream_at_stop Z _ _ _ (from [1; 2; 3; 0; 4; 5]%Z)
           (Z.eqb 0) [1; 2; 3]%Z [4; 5]%Z 0%Z 7).
  - simpl. unfold range_wf. simpl. lia.
  - reflexivity.
  - simpl. intros y [<-|[<-|[<-|[]]]]; reflexivity.
  - reflexivity.
  - simpl. unfold range_need. simpl. lia.
Defined.

Example until_upstream_position :
  to_vector 7 (until (from [1; 2; 3; 0; 4; 5]%Z) (Z.eqb 0))
  = Done ([1; 2; 3]%Z,
          {| until_parent_ := from_range [1; 2; 3; 0; 4; 5]%Z 3 6;
             until_func_ := Z.eqb 0; until_flag_ := Some false;
             flag_of_flag_ := true |}).
Proof. reflexivity. Qed.

(** ** Validity between increments *)

Lemma quiet_run_law `{Lawful T E} (fuel : nat) :
  forall ms (e : E) obs e',
  wf e -> existsb is_advance ms = false ->
  run fuel ms e = Done (obs, e') ->
  wf e' /\ denote e' = denote e /\ (denote e = [] -> all_invalid obs = true).
Proof.
  induction ms as [|[| |] ms IH]; intros e obs e' Hwf Hq; simpl.
  - intros Heq; inversion Heq; subst. auto.
  - destruct (to_bool_law _ Hwf) as (e1 & -> & Hwf1 & Hd1 & _). simpl.
    destruct (run fuel ms e1) as [[obs1 e2]| |] eqn:Hrun; simpl; try discriminate.
    intros Heq; inversion Heq; subst.
    destruct (IH _ _ _ Hwf1 Hq Hrun) as (Hwf2 & Hd2 & Hall).
    split; [exact Hwf2|]. split; [congruence|].
    intros Hnil. simpl. rewrite Hnil. simpl. apply Hall. congruence.
  - destruct (deref e) as [[x e1]| |] eqn:Hderef; simpl; try discriminate.
    destruct (deref_keep _ Hwf Hderef) as (Hwf1 & Hd1 & _).
    destruct (run fuel ms e1) as [[obs1 e2]| |] eqn:Hrun; simpl; try discriminate.
    intros Heq; inversion Heq; subst.
    destruct (IH _ _ _ Hwf1 Hq Hrun) as (Hwf2 & Hd2 & Hall).
    split; [exact Hwf2|]. split; [congruence|].
    intros Hnil. simpl. apply Hall. congruence.
  - discriminate.
Qed.

(** ** Increments of an exhausted cursor

    [whole e] is meant for: the source under [e] ends where its collection
    ends.  With such a source, and without an until cursor in the chain,
    an increment that returns moves to the tail of what the cursor
    presents, also when there is nothing left to present. *)

Record permanent_laws (T E : Type) `{Lawful T E} (whole : E -> Prop) : Prop :=
  { whole_to_bool : forall e b e',
      wf e -> whole e -> to_bool e = Done (b, e') -> whole e';
    whole_deref : forall e v e',
      wf e -> whole e -> deref e = Done (v, e') -> whole e';
    whole_incr : forall fuel e e',
      wf e -> whole e -> need e <= fuel -> incr fuel e = Done e' ->
      whole e' /\ wf e' /\ need e' <= need e /\ denote e' = tl (denote e) }.

Arguments permanent_laws {T E _ _} whole.

Definition range_whole {T} (r : range_enumerator T) : Prop :=
  end_ r = length (coll r).

Lemma range_permanent (T : Type) : permanent_laws (@range_whole T).
Proof.
  split.
  - intros e b e' _ Hw. simpl. unfold range_to_bool.
    intros Heq; inversion Heq; subst; exact Hw.
  - intros e v e' _ Hw. simpl. unfold range_deref.
    destruct (nth_error (coll e) (begin_ e)); intros Heq; inversion Heq; subst; exact Hw.
  - intros fuel e e' Hwf Hw _. simpl. unfold range_incr.
    destruct (Nat.ltb_spec (begin_ e) (length (coll e))) as [Hlt|Hge]; [|discriminate].
    intros Heq; inversion Heq; subst. unfold range_whole in Hw.
    assert (Hne : begin_ e <> end_ e) by lia.
    destruct (range_denote_cons Hwf Hne) as (x & _ & Hd).
    destruct Hwf as [Hb He].
    unfold range_whole, range_wf, range_need. simpl.
    rewrite Hd. simpl. repeat split; try lia; reflexivity.
Qed.

Lemma firstn_pred_tl {A} (n : nat) (l : list A) :
  firstn (Nat.pred n) (tl l) = tl (firstn n l).
Proof.
  destruct n as [|n]; simpl.
  - reflexivity.
  - destruct l; simpl; [now rewrite firstn_nil | reflexivity].
Qed.

Section Permanent.
Context `{Lawful T E} (whole : E -> Prop) (P : permanent_laws whole).

Lemma take_permanent : permanent_laws (fun t : take_enumerator E => whole (take_parent_ t)).
Proof.
  split.
  - intros t b t' Hwf Hw. simpl. unfold take_to_bool.
    destruct (0 <? amount_ t)%Z.
    + destruct (to_bool (take_parent_ t)) as [[b1 p]| |] eqn:Hp; simpl; try discriminate.
      intros Heq; inversion Heq; subst. simpl. exact (whole_to_bool P _ Hwf Hw Hp).
    + intros Heq; inversion Heq; subst. exact Hw.
  - intros t v t' Hwf Hw. simpl. unfold take_deref.
    destruct (deref (take_parent_ t)) as [[x p]| |] eqn:Hp; simpl; try discriminate.
    intros Heq; inversion Heq; subst. simpl. exact (whole_deref P _ Hwf Hw Hp).
  - intros fuel t t' Hwf Hw Hfuel. simpl. unfold take_incr.
    destruct (incr fuel (take_parent_ t)) as [p| |] eqn:Hp; simpl; try discriminate.
    destruct (Z.eqb_spec (amount_ t) INT_MIN) as [_|Hmin]; [discriminate|].
    intros Heq; inversion Heq; subst.
    destruct (whole_incr P _ Hwf Hw Hfuel Hp) as (Hw' & Hwf' & Hn' & Hd').
    unfold take_wf, take_need, take_denote. simpl.
    rewrite Hd', <- firstn_pred_tl. repeat split; auto.
    f_equal. lia.
Qed.

Lemma drop_permanent : permanent_laws (fun d : drop_enumerator E => whole (drop_parent_ d)).
Proof.
  split.
  - intros d b d' Hwf Hw. simpl. unfold drop_to_bool.
    destruct (to_bool (drop_parent_ d)) as [[b1 p]| |] eqn:Hp; simpl; try discriminate.
    intros Heq; inversion Heq; subst. simpl. exact (whole_to_bool P _ Hwf Hw Hp).
  - intros d v d' Hwf Hw. simpl. unfold drop_deref.
    destruct (deref (drop_parent_ d)) as [[x p]| |] eqn:Hp; simpl; try discriminate.
    intros Heq; inversion Heq; subst. simpl. exact (whole_deref P _ Hwf Hw Hp).
  - intros fuel d d' Hwf Hw Hfuel. simpl. unfold drop_incr.
    destruct (incr fuel (drop_parent_ d)) as [p| |] eqn:Hp; simpl; try discriminate.
    intros Heq; inversion Heq; subst.
    exact (whole_incr P _ Hwf Hw Hfuel Hp).
Qed.

Lemma where_skip_whole `{PureCallable F T bool} fuel : forall gas (p : E) (f : F) w,
  wf p -> whole p -> need p <= fuel ->
  where_skip gas fuel p f = Done w -> whole (where_parent_ w).
Proof.
  induction gas as [|gas IH]; intros p f w Hwf Hw Hfuel; simpl;
    destruct (to_bool_law _ Hwf) as (p1 & Hp1 & Hwf1 & Hd1 & Hn1);
    pose proof (whole_to_bool P _ Hwf Hw Hp1) as Hw1; rewrite Hp1; simpl;
    (destruct (negb (is_nil (denote p)));
     [|intros Heq; inversion Heq; subst; exact Hw1]);
    (destruct (deref p1) as [[x p2]| |] eqn:Hp2; simpl; try discriminate);
    pose proof (whole_deref P _ Hwf1 Hw1 Hp2) as Hw2;
    destruct (deref_keep _ Hwf1 Hp2) as (Hwf2 & Hd2 & Hn2);
    destruct (call f x) as [[|] f1]; simpl;
    try (intros Heq; inversion Heq; subst; exact Hw2); try discriminate.
  destruct (incr fuel p2) as [p3| |] eqn:Hp3; simpl; try discriminate.
  assert (Hfuel2 : need p2 <= fuel) by lia.
  destruct (whole_incr P _ Hwf2 Hw2 Hfuel2 Hp3) as (Hw3 & Hwf3 & Hn3 & _).
  apply IH; auto. lia.
Qed.

Lemma where_permanent `{PureCallable F T bool} :
  permanent_laws (fun w : where_enumerator E F => whole (where_parent_ w)).
Proof.
  split.
  - intros w b w' Hwf Hw. simpl. unfold where_to_bool.
    destruct (to_bool (where_parent_ w)) as [[b1 p]| |] eqn:Hp; simpl; try discriminate.
    intros Heq; inversion Heq; subst. simpl. exact (whole_to_bool P _ Hwf Hw Hp).
  - intros w v w' Hwf Hw. simpl. unfold where_deref.
    destruct (deref (where_parent_ w)) as [[x p]| |] eqn:Hp; simpl; try discriminate.
    intros Heq; inversion Heq; subst. simpl. exact (whole_deref P _ Hwf Hw Hp).
  - intros fuel w w' Hwf Hw Hfuel. simpl. unfold where_incr.
    destruct (incr fuel (where_parent_ w)) as [p| |] eqn:Hp; simpl; try discriminate.
    destruct (whole_incr P _ Hwf Hw Hfuel Hp) as (Hw1 & Hwf1 & Hn1 & Hd1).
    intros Hskip.
    change (need (where_parent_ w) <= fuel) in Hfuel.
    assert (Hfuel1 : need p <= fuel) by lia.
    pose proof (where_skip_whole _ _ Hwf1 Hw1 Hfuel1 Hskip) as Hw'.
    pose proof (need_denote _ Hwf1) as Hnd.
    destruct (@where_skip_law _ _ _ _ _ _ _ fuel fuel p (where_func_ w) Hwf1)
      as (w2 & Hw2 & Hwf2 & Hd2 & Hn2 & Hf2);
      [lia..|].
    rewrite Hskip in Hw2. inversion Hw2; subst w2.
    unfold where_wf, where_need, where_denote.
    rewrite Hd2, Hf2, keep_head_from_first, Hd1.
    repeat split; auto; [lia|].
    now destruct (denote (where_parent_ w)).
Qed.
End Permanent.

Lemma select_permanent `{Lawful U E} (whole : E -> Prop) (P : permanent_laws whole)
    `{PureCallable F U T} :
  permanent_laws (fun s : select_enumerator T E F => whole (select_parent_ s)).
Proof.
  split.
  - intros s b s' [Hwf _] Hw. simpl. unfold select_to_bool.
    destruct (to_bool (select_parent_ s)) as [[b1 p]| |] eqn:Hp; simpl; try discriminate.
    intros Heq; inversion Heq; subst. simpl. exact (whole_to_bool P _ Hwf Hw Hp).
  - intros s v s' [Hwf _] Hw. simpl. unfold select_deref.
    destruct (select_flag_ s).
    + destruct (deref (select_parent_ s)) as [[x p]| |] eqn:Hp; simpl; try discriminate.
      destruct (call (select_func_ s) x) as [y f].
      intros Heq; inversion Heq; subst. simpl. exact (whole_deref P _ Hwf Hw Hp).
    + destruct (value_ s); intros Heq; inversion Heq; subst. exact Hw.
  - intros fuel s s' [Hwf _] Hw Hfuel. simpl. unfold select_incr.
    destruct (incr fuel (select_parent_ s)) as [p| |] eqn:Hp; simpl; try discriminate.
    intros Heq; inversion Heq; subst.
    destruct (whole_incr P _ Hwf Hw Hfuel Hp) as (Hw' & Hwf' & Hn' & Hd').
    unfold select_wf, select_need, select_denote. simpl. rewrite Hd'.
    repeat split; auto; [discriminate|].
    destruct (select_flag_ s), (value_ s), (denote (select_parent_ s));
      simpl; reflexivity.
Qed.

(** No until cursor in the chain. *)
Fixpoint until_free (T E : Type) (I : Enumerator T E) (c : library_cursor I) : bool :=
  match c with
  | lc_range _ => true
  | lc_take c' => until_free c'
  | lc_drop c' => until_free c'
  | lc_select _ c' => until_free c'
  | lc_until _ _ => false
  | lc_where _ c' => until_free c'
  end.

(** The source under the chain ends where its collection ends. *)
Fixpoint library_whole (T E : Type) (I : Enumerator T E) (c : library_cursor I)
  : E -> Prop :=
  match c in @library_cursor _ E' _ return E' -> Prop with
  | lc_range _ => fun r => range_whole r
  | lc_take c' => fun t => library_whole c' (take_parent_ t)
  | lc_drop c' => fun d => library_whole c' (drop_parent_ d)
  | lc_select _ c' => fun s => library_whole c' (select_parent_ s)
  | lc_until _ c' => fun u => library_whole c' (until_parent_ u)
  | lc_where _ c' => fun w => library_whole c' (where_parent_ w)
  end.

Definition library_need (T E : Type) (I : Enumerator T E) (c : library_cursor I)
  : E -> nat :=
  @need T E I (library_lawful c).

Lemma library_permanent (T E : Type) (I : Enumerator T E) (c : library_cursor I) :
  until_free c = true ->
  @permanent_laws T E I (library_lawful c) (library_whole c).
Proof.
  induction c; simpl; intros Hfree.
  - apply range_permanent.
  - apply take_permanent; auto.
  - apply drop_permanent; auto.
  - apply select_permanent; auto.
  - discriminate.
  - apply where_permanent; auto.
Qed.

Lemma permanent_run `{Lawful T E} (whole : E -> Prop) (P : permanent_laws whole)
    (fuel : nat) :
  forall ms (e : E) obs e',
  wf e -> whole e -> need e <= fuel -> denote e = [] ->
  run fuel ms e = Done (obs, e') ->
  all_invalid obs = true /\ wf e' /\ denote e' = [].
Proof.
  induction ms as [|[| |] ms IH]; intros e obs e' Hwf Hw Hfuel Hnil; simpl.
  - intros Heq; inversion Heq; subst. auto.
  - destruct (to_bool_law _ Hwf) as (e1 & He1 & Hwf1 & Hd1 & Hn1).
    pose proof (whole_to_bool P _ Hwf Hw He1) as Hw1.
    rewrite He1, Hnil. simpl.
    destruct (run fuel ms e1) as [[obs1 e2]| |] eqn:Hrun; simpl; try discriminate.
    intros Heq; inversion Heq; subst.
    destruct (IH _ _ _ Hwf1 Hw1 ltac:(lia) ltac:(congruence) Hrun) as (Hall & Hwf2 & Hd2).
    simpl. auto.
  - destruct (deref e) as [[x e1]| |] eqn:He1; simpl; try discriminate.
    destruct (deref_keep _ Hwf He1) as (Hwf1 & Hd1 & Hn1).
    pose proof (whole_deref P _ Hwf Hw He1) as Hw1.
    destruct (run fuel ms e1) as [[obs1 e2]| |] eqn:Hrun; simpl; try discriminate.
    intros Heq; inversion Heq; subst.
    destruct (IH _ _ _ Hwf1 Hw1 ltac:(lia) ltac:(congruence) Hrun) as (Hall & Hwf2 & Hd2).
    simpl. auto.
  - destruct (incr fuel e) as [e1| |] eqn:He1; simpl; try discriminate.
    destruct (whole_incr P _ Hwf Hw Hfuel He1) as (Hw1 & Hwf1 & Hn1 & Hd1).
    rewrite Hnil in Hd1. simpl in Hd1.
    destruct (run fuel ms e1) as [[obs1 e2]| |] eqn:Hrun; simpl; try discriminate.
    intros Heq; inversion Heq; subst.
    destruct (IH _ _ _ Hwf1 Hw1 ltac:(lia) Hd1 Hrun) as (Hall & Hwf2 & Hd2).
    simpl. auto.
Qed.

(** A source cursor over a part of its collection is valid again when it
    is incremented past its end position. *)
Example range_valid_again_past_end :
  result_of (run 0 [Advance; Valid; Advance; Valid] (from_range [1; 2; 3]%Z 0 1))
  = Some [Advanced; Validity false; Advanced; Validity true].
Proof. reflexivity. Qed.

(** C1, as it is stated, fails: the until cursor over [1; 0; 2] with the
    predicate "equals 0" is valid at 1, invalid at 0 and, incremented once
    more, valid again at 2. *)
Lemma until_valid_again_after_increment :
  library_wf (lc_until (function_Pure Z bool) (lc_range Z))
    (until (from [1; 0; 2]%Z) (Z.eqb 0))
  /\ result_of (run 1 [Valid; Advance; Valid; Advance; Valid]
                  (until (from [1; 0; 2]%Z) (Z.eqb 0)))
     = Some [Validity true; Advanced; Validity false; Advanced; Validity true]
  /\ never_revived
       ([Validity true; Advanced; Validity false; Advanced; Validity true]
          : list (observation Z))
     = false.
Proof.
  split; [|split; reflexivity].
  cbv. split; [lia | discriminate].
Qed.

(** C1, amended: for every cursor produced by the library, in a
    well-formed state, once the conversion to bool has returned false,
    every later conversion returns false, in any sequence of conversions,
    dereferences and increments that returns, provided that the cursor is
    not incremented in between, or that there is no until cursor in the
    chain and the source ends where its collection ends (with enough
    iterations for the loops of where). *)
Theorem invalid_stays_invalid (T E : Type) (I : Enumerator T E)
    (c : library_cursor I) (fuel : nat) (e e1 e2 : E) (ms : list method)
    (obs : list (observation T)) :
  library_wf c e ->
  to_bool e = Done (false, e1) ->
  run fuel ms e1 = Done (obs, e2) ->
  existsb is_advance ms = false
  \/ (until_free c = true /\ library_whole c e /\ library_need c e <= fuel) ->
  all_invalid obs = true /\ exists e3, to_bool e2 = Done (false, e3).
Proof.
  unfold library_wf, library_need. intros Hwf Hfalse Hrun Hcases.
  destruct (@to_bool_law T E I (library_lawful c) e Hwf) as (e1' & He1 & Hwf1 & Hd1 & Hn1).
  rewrite Hfalse in He1. inversion He1 as [[Hnil He]]. subst e1'.
  assert (Hd : @denote T E I (library_lawful c) e = []).
  { destruct (@denote T E I (library_lawful c) e); [reflexivity | discriminate]. }
  rewrite Hd in Hd1.
  assert (Hend : all_invalid obs = true
                 /\ @wf T E I (library_lawful c) e2
                 /\ @denote T E I (library_lawful c) e2 = []).
  { destruct Hcases as [Hq | (Hfree & Hw & Hfuel)].
    - destruct (@quiet_run_law T E I (library_lawful c) fuel ms e1 obs e2 Hwf1 Hq Hrun)
        as (Hwf2 & Hd2 & Hall).
      split; [exact (Hall Hd1)|]. split; [exact Hwf2 | congruence].
    - pose proof (library_permanent c Hfree) as P.
      pose proof (whole_to_bool P _ Hwf Hw Hfalse) as Hw1.
      apply (@permanent_run T E I (library_lawful c) _ P fuel ms e1 obs e2);
        auto; lia. }
  destruct Hend as (Hall & Hwf2 & Hd2). split; [exact Hall|].
  destruct (@to_bool_law T E I (library_lawful c) e2 Hwf2) as (e3 & He3 & _).
  exists e3. rewrite He3, Hd2. reflexivity.
Qed.

Lemma invalid_stays_invalid_witness :
  (all_invalid ([Validity false; Value 0%Z; Validity false] : list (observation Z)) = true
   /\ exists e3,
        to_bool {| until_parent_ := from_range [1; 0; 2]%Z 1 3; until_func_ := Z.eqb 0;
                   until_flag_ := Some false; flag_of_flag_ := true |}
        = Done (false, e3))
  /\ (all_invalid ([Advanced; Validity false; Value 2%Z; Advanced; Validity false]
                     : list (observation Z)) = true
      /\ exists e3,
           to_bool (take (from_range [1; 2; 3]%Z 2 3) (-2)) = Done (false, e3)).
Proof.
  split.
  - apply (@invalid_stays_invalid Z _ _
             (lc_until (function_Pure Z bool) (lc_range Z)) 1
             (until (from_range [1; 0; 2]%Z 1 3) (Z.eqb 0))
             {| until_parent_ := from_range [1; 0; 2]%Z 1 3; until_func_ := Z.eqb 0;
                until_flag_ := Some false; flag_of_flag_ := true |}
             {| until_parent_ := from_range [1; 0; 2]%Z 1 3; until_func_ := Z.eqb 0;
                until_flag_ := Some false; flag_of_flag_ := true |}
             [Valid; Current; Valid]).
    + cbv. split; [lia | discriminate].
    + reflexivity.
    + reflexivity.
    + left. reflexivity.
  - apply (@invalid_stays_invalid Z _ _ (lc_take (lc_range Z)) 4
             (take (from [1; 2; 3]%Z) 0)
             (take (from [1; 2; 3]%Z) 0)
             (take (from_range [1; 2; 3]%Z 2 3) (-2))
             [Advance; Valid; Current; Advance; Valid]).
    + cbv. lia.
    + reflexivity.
    + reflexivity.
    + right. split; [reflexivity|]. split; [reflexivity | cbv; lia].
Defined.

(** ** [copy_to]

    [copy_to(it)] runs the loop of [to_vector] with an assignment through
    the dereferenced, post-incremented iterator in place of [push_back]:
    the iterator is an output iterator, and the assignment hands the
    current element to what the iterator writes to.  [assign_next it v] is
    the iterator's target after the assignment of [v]. *)

Class OutputIterator (It T : Type) : Type :=
  { assign_next : It -> T -> It }.

(** [std::back_inserter] on a container: the assignment is a [push_back]. *)
Record back_insert_iterator (T : Type) : Type :=
  { container : list T }.

#[export] Instance back_insert_OutputIterator (T : Type)
  : OutputIterator (back_insert_iterator T) T :=
  { assign_next it v := {| container := container it ++ [v] |} }.

Fixpoint copy_to_loop `{Enumerator T E} `{OutputIterator It T} (gas fuel : nat)
    (e : E) (it : It) : outcome (It * E) :=
  '(b, e1) <- to_bool e ;;
  if b then
    match gas with
    | O => OutOfFuel
    | S gas' =>
        '(x, e2) <- deref e1 ;;
        e3 <- incr fuel e2 ;;
        copy_to_loop gas' fuel e3 (assign_next it x)
    end
  else Done (it, e1).

Definition copy_to `{Enumerator T E} `{OutputIterator It T} (fuel : nat) (e : E) (it : It)
  : outcome (It * E) :=
  copy_to_loop fuel fuel e it.

Lemma to_vector_loop_acc `{Enumerator T E} (fuel : nat) :
  forall gas (e : E) (acc : list T),
  to_vector_loop gas fuel e acc
  = ('(l, e') <- to_vector_loop gas fuel e [] ;; Done (acc ++ l, e')).
Proof.
  induction gas as [|gas IH]; intros e acc; simpl.
  - destruct (to_bool e) as [[[|] e1]| |]; simpl; try reflexivity.
    now rewrite app_nil_r.
  - destruct (to_bool e) as [[[|] e1]| |]; simpl; try reflexivity;
      [|now rewrite app_nil_r].
    destruct (deref e1) as [[x e2]| |]; simpl; try reflexivity.
    destruct (incr fuel e2) as [e3| |]; simpl; try reflexivity.
    rewrite (IH e3 (acc ++ [x])), (IH e3 [x]).
    destruct (to_vector_loop gas fuel e3 []) as [[l e']| |]; simpl; try reflexivity.
    now rewrite <- app_assoc.
Qed.

Lemma copy_to_loop_to_vector `{Enumerator T E} `{OutputIterator It T} (fuel : nat) :
  forall gas (e : E) (it : It),
  copy_to_loop gas fuel e it
  = ('(l, e') <- to_vector_loop gas fuel e [] ;; Done (fold_left assign_next l it, e')).
Proof.
  induction gas as [|gas IH]; intros e it; simpl.
  - destruct (to_bool e) as [[[|] e1]| |]; reflexivity.
  - destruct (to_bool e) as [[[|] e1]| |]; simpl; try reflexivity.
    destruct (deref e1) as [[x e2]| |]; simpl; try reflexivity.
    destruct (incr fuel e2) as [e3| |]; simpl; try reflexivity.
    rewrite IH, (to_vector_loop_acc fuel gas e3 [x]).
    destruct (to_vector_loop gas fuel e3 []) as [[l e']| |]; reflexivity.
Qed.

Lemma fold_left_back_insert {T} (l : list T) : forall (it : back_insert_iterator T),
  fold_left assign_next l it = {| container := container it ++ l |}.
Proof.
  induction l as [|x l IH]; intros it; simpl.
  - destruct it. simpl. now rewrite app_nil_r.
  - rewrite IH. simpl. now rewrite <- app_assoc.
Qed.

(** X1: on any cursor, [copy_to] hands to the output iterator exactly the
    elements that [to_vector] would return, in the same order, and leaves
    the cursor as [to_vector] does; through a back inserter the container
    ends with these elements appended to what it held. *)
Theorem copy_to_is_to_vector (T E : Type) (I : Enumerator T E) (fuel : nat) (e : E) :
  (forall (It : Type) (O : OutputIterator It T) (it : It),
      copy_to fuel e it
      = ('(l, e') <- to_vector fuel e ;; Done (fold_left assign_next l it, e')))
  /\ (forall (held : list T),
         copy_to fuel e {| container := held |}
         = ('(l, e') <- to_vector fuel e ;; Done ({| container := held ++ l |}, e'))).
Proof.
  split.
  - intros It O it. apply copy_to_loop_to_vector.
  - intros held. unfold copy_to. rewrite copy_to_loop_to_vector. unfold to_vector.
    destruct (to_vector_loop fuel fuel e []) as [[l e']| |]; cbn [bind]; try reflexivity.
    now rewrite fold_left_back_insert.
Qed.

Example scenario_copy_to :
  copy_to 7 (take (from [1; 2; 3; 4]%Z) 3) {| container := [9]%Z |}
  = Done ({| container := [9; 1; 2; 3]%Z |},
          {| take_parent_ := from_range [1; 2; 3; 4]%Z 3 4; amount_ := 0 |}).
Proof. reflexivity. Qed.

(** ** The source cursor alone *)

Lemma range_to_vector_loop {T} (c : list T) (e fuel : nat) :
  e <= length c ->
  forall gas b acc,
  b <= e -> e - b <= gas ->
  to_vector_loop gas fuel (from_range c b e) acc
  = Done (acc ++ firstn (e - b) (skipn b c), from_range c e e).
Proof.
  intros He. induction gas as [|gas IH]; intros b acc Hb Hgas; simpl;
    unfold range_to_bool; simpl.
  - replace b with e by lia. rewrite Nat.eqb_refl, Nat.sub_diag. simpl.
    now rewrite app_nil_r.
  - destruct (Nat.eqb_spec b e) as [Heq|Hne]; simpl.
    + subst b. rewrite Nat.sub_diag. simpl. now rewrite app_nil_r.
    + assert (Hwf : range_wf (from_range c b e)) by (unfold range_wf; simpl; lia).
      destruct (range_denote_cons Hwf Hne) as (x & Hx & Hd).
      unfold range_denote in Hd. simpl in Hx, Hd.
      unfold range_deref. simpl. rewrite Hx. simpl.
      unfold range_incr. simpl.
      assert (Hlt : b < length c) by lia.
      apply Nat.ltb_lt in Hlt. rewrite Hlt. simpl.
      change {| coll := c; begin_ := S b; end_ := e |} with (from_range c (S b) e).
      rewrite IH by lia. rewrite Hd, <- app_assoc. reflexivity.
Qed.

(** X2: collecting the source cursor over the positions [b .. e) of a
    collection returns the elements at these positions, in order, and
    leaves the cursor at [e]; over a whole collection it returns the
    collection. *)
Theorem from_to_vector_round_trip (T : Type) (c : list T) (b e fuel : nat) :
  b <= e -> e <= length c -> e - b <= fuel ->
  to_vector fuel (from_range c b e)
  = Done (firstn (e - b) (skipn b c), from_range c e e)
  /\ (length c <= fuel ->
      to_vector fuel (from c) = Done (c, from_range c (length c) (length c))).
Proof.
  intros Hb He Hfuel. split.
  - unfold to_vector. now rewrite range_to_vector_loop by lia.
  - intros Hall. unfold to_vector, from. rewrite range_to_vector_loop by lia.
    simpl. now rewrite Nat.sub_0_r, firstn_all.
Qed.

Lemma from_to_vector_round_trip_witness :
  to_vector 2 (from_range [1; 2; 3; 4]%Z 1 3) = Done ([2; 3]%Z, from_range [1; 2; 3; 4]%Z 3 3).
Proof.
  apply (@from_to_vector_round_trip Z [1; 2; 3; 4]%Z 1 3 2); simpl; lia.
Defined.

(** ** Every library cursor under the pull protocol *)

Lemma steady_run_law `{Lawful T E} (fuel : nat) (x : T) (r : list T) :
  forall ms (e : E),
  wf e -> denote e = x :: r -> existsb is_advance ms = false ->
  exists obs e',
    run fuel ms e = Done (obs, e') /\ wf e' /\ denote e' = x :: r
    /\ Forall (fun o => o = Validity true \/ o = Value x) obs.
Proof.
  induction ms as [|[| |] ms IH]; intros e Hwf Hd Hq; simpl in *.
  - exists [], e. auto.
  - destruct (to_bool_law _ Hwf) as (e1 & -> & Hwf1 & Hd1 & _). rewrite Hd. simpl.
    destruct (IH e1 Hwf1 ltac:(congruence) Hq) as (obs & e' & -> & Hwf' & Hd' & Hall).
    simpl. eexists _, e'. split; [reflexivity|]. auto.
  - destruct (deref_law _ Hwf Hd) as (e1 & He1). rewrite He1. simpl.
    destruct (deref_keep _ Hwf He1) as (Hwf1 & Hd1 & _).
    destruct (IH e1 Hwf1 ltac:(congruence) Hq) as (obs & e' & -> & Hwf' & Hd' & Hall).
    simpl. eexists _, e'. split; [reflexivity|]. auto.
  - discriminate.
Qed.

(** X3: on every cursor produced by the library, in a well-formed state
    and with enough iterations for the loops, [to_vector] returns: it runs
    into no undefined behaviour, leaves the cursor well-formed and
    invalid, and a second [to_vector] returns the empty collection. *)
Theorem to_vector_is_safe_and_drains (T E : Type) (I : Enumerator T E)
    (c : library_cursor I) (fuel : nat) (e : E) :
  library_wf c e -> library_need c e <= fuel ->
  exists l e' e'',
    to_vector fuel e = Done (l, e')
    /\ library_wf c e'
    /\ result_of (to_bool e') = Some false
    /\ to_vector fuel e' = Done ([], e'').
Proof.
  unfold library_wf, library_need. intros Hwf Hfuel.
  destruct (@to_vector_law T E I (library_lawful c) fuel e Hwf Hfuel)
    as (e' & He' & Hwf' & Hd' & Hn').
  destruct (@to_bool_law T E I (library_lawful c) e' Hwf') as (e1 & He1 & _).
  assert (Hfuel' : @need T E I (library_lawful c) e' <= fuel) by lia.
  destruct (@to_vector_law T E I (library_lawful c) fuel e' Hwf' Hfuel')
    as (e'' & He'' & _).
  eexists _, e', e''. split; [exact He'|]. split; [exact Hwf'|].
  split; [now rewrite He1, Hd'|]. now rewrite He'', Hd'.
Qed.

Lemma to_vector_is_safe_and_drains_witness :
  exists l e' e'',
    to_vector 5 (until (take (from [1; 2; 0; 3]%Z) 3) (Z.eqb 0)) = Done (l, e')
    /\ library_wf (lc_until (function_Pure Z bool) (lc_take (lc_range Z))) e'
    /\ result_of (to_bool e') = Some false
    /\ to_vector 5 e' = Done ([], e'').
Proof.
  apply (@to_vector_is_safe_and_drains Z _ _
           (lc_until (function_Pure Z bool) (lc_take (lc_range Z))) 5
           (until (take (from [1; 2; 0; 3]%Z) 3) (Z.eqb 0))).
  - cbv. split; [lia | discriminate].
  - cbv. lia.
Defined.

(** X4: on every cursor produced by the library, in a well-formed state,
    once the conversion to bool has returned true, conversions and
    dereferences in any number and order all return, every conversion
    gives true and every dereference gives the same element, until the
    cursor is incremented. *)
Theorem current_is_repeatable (T E : Type) (I : Enumerator T E)
    (c : library_cursor I) (fuel : nat) (e e1 : E) (ms : list method) :
  library_wf c e ->
  to_bool e = Done (true, e1) ->
  existsb is_advance ms = false ->
  exists x obs e2,
    run fuel ms e1 = Done (obs, e2)
    /\ Forall (fun o => o = Validity true \/ o = Value x) obs
    /\ result_of (deref e2) = Some x.
Proof.
  unfold library_wf. intros Hwf Htrue Hq.
  destruct (@to_bool_law T E I (library_lawful c) e Hwf) as (e1' & He1 & Hwf1 & Hd1 & _).
  rewrite Htrue in He1. inversion He1 as [[Hnil He]]. subst e1'.
  destruct (@denote T E I (library_lawful c) e) as [|x r] eqn:Hd; [discriminate|].
  destruct (@steady_run_law T E I (library_lawful c) fuel x r ms e1 Hwf1 Hd1 Hq)
    as (obs & e2 & Hrun & Hwf2 & Hd2 & Hall).
  destruct (@deref_law T E I (library_lawful c) e2 x r Hwf2 Hd2) as (e3 & He3).
  exists x, obs, e2. split; [exact Hrun|]. split; [exact Hall|]. now rewrite He3.
Qed.

Lemma current_is_repeatable_witness :
  exists x obs e2,
    run 1 [Current; Valid; Current]
        {| select_parent_ := from [1; 2]%Z; value_ := None;
           select_func_ := Z.succ; select_flag_ := true |}
    = Done (obs, e2)
    /\ Forall (fun o => o = Validity true \/ o = Value x) obs
    /\ result_of (deref e2) = Some x.
Proof.
  apply (@current_is_repeatable Z _ _
           (lc_select (function_Pure Z Z) (lc_range Z)) 1
           (select (from [1; 2]%Z) Z.succ)).
  - cbv. split; [lia | discriminate].
  - reflexivity.
  - reflexivity.
Defined.

(** ** How often the function objects are invoked *)

(** The dereferences in [ms] that are the first at their position, for a
    cursor whose current position has ([fresh = false]) or has not
    ([fresh = true]) been dereferenced yet. *)
Fixpoint first_derefs (fresh : bool) (ms : list method) : nat :=
  match ms with
  | [] => 0
  | Valid :: ms' => first_derefs fresh ms'
  | Current :: ms' => (if fresh then 1 else 0) + first_derefs false ms'
  | Advance :: ms' => first_derefs true ms'
  end.

(** The conversions to bool in [ms] that are the first at their position. *)
Fixpoint first_valids (fresh : bool) (ms : list method) : nat :=
  match ms with
  | [] => 0
  | Valid :: ms' => (if fresh then 1 else 0) + first_valids false ms'
  | Current :: ms' => first_valids fresh ms'
  | Advance :: ms' => first_valids true ms'
  end.

(** X5: on any upstream, in any sequence of conversions, dereferences and
    increments of a select cursor that returns, the function is invoked
    once for each position that is dereferenced and not at all for a
    position that is not: the invocations are the dereferences that are
    the first at their position. *)
Theorem select_invokes_once_per_dereferenced_position (U T E : Type)
    (I : Enumerator U E) (fuel : nat) :
  forall (ms : list method) (s s' : select_enumerator T E (counted U T))
         (obs : list (observation T)),
  run fuel ms s = Done (obs, s') ->
  calls (select_func_ s') = calls (select_func_ s) + first_derefs (select_flag_ s) ms.
Proof.
  induction ms as [|[| |] ms IH]; intros s s' obs; simpl.
  - intros Heq; inversion Heq; subst. lia.
  - unfold select_to_bool.
    destruct (to_bool (select_parent_ s)) as [[b p]| |]; simpl; try discriminate.
    destruct (run fuel ms _) as [[obs1 s1]| |] eqn:Hrun; simpl; try discriminate.
    intros Heq; inversion Heq; subst. apply IH in Hrun. simpl in Hrun. exact Hrun.
  - unfold select_deref. destruct (select_flag_ s) eqn:Hflag.
    + destruct (deref (select_parent_ s)) as [[u p]| |]; simpl; try discriminate.
      destruct (run fuel ms _) as [[obs1 s1]| |] eqn:Hrun; simpl; try discriminate.
      intros Heq; inversion Heq; subst. apply IH in Hrun. simpl in Hrun. lia.
    + destruct (value_ s); simpl; try discriminate.
      destruct (run fuel ms s) as [[obs1 s1]| |] eqn:Hrun; simpl; try discriminate.
      intros Heq; inversion Heq; subst. apply IH in Hrun. rewrite Hflag in Hrun. lia.
  - unfold select_incr.
    destruct (incr fuel (select_parent_ s)) as [p| |]; simpl; try discriminate.
    destruct (run fuel ms _) as [[obs1 s1]| |] eqn:Hrun; simpl; try discriminate.
    intros Heq; inversion Heq; subst. apply IH in Hrun. simpl in Hrun. exact Hrun.
Qed.

Lemma select_invokes_once_per_dereferenced_position_witness :
  calls (select_func_
           {| select_parent_ := from_range [1; 2; 3]%Z 2 3; value_ := Some 30%Z;
              select_func_ := {| cnt_fun := fun x => (x * 10)%Z; calls := 2 |};
              select_flag_ := false |})
  = 0 + first_derefs true [Current; Current; Advance; Advance; Valid; Current].
Proof.
  apply (@select_invokes_once_per_dereferenced_position Z Z _ _ 0
           [Current; Current; Advance; Advance; Valid; Current]
           (select (from [1; 2; 3]%Z) {| cnt_fun := fun x => (x * 10)%Z; calls := 0 |})
           _ [Value 10%Z; Value 10%Z; Advanced; Advanced; Validity true; Value 30%Z]).
  reflexivity.
Defined.

Lemma first_valids_fresh (ms : list method) :
  first_valids true ms <= 1 + first_valids false ms.
Proof.
  induction ms as [|[| |] ms IH]; simpl; lia.
Qed.

(** X6: on any upstream, in any sequence of conversions, dereferences and
    increments of an until cursor that returns, the predicate is invoked
    at most once per position, by the first conversion to bool there; a
    dereference or an increment never invokes it. *)
Theorem until_invokes_at_most_once_per_position (T E : Type)
    (I : Enumerator T E) (fuel : nat) :
  forall (ms : list method) (u u' : until_enumerator E (counted T bool))
         (obs : list (observation T)),
  run fuel ms u = Done (obs, u') ->
  calls (until_func_ u) <= calls (until_func_ u')
  /\ calls (until_func_ u')
     <= calls (until_func_ u) + first_valids (negb (flag_of_flag_ u)) ms.
Proof.
  induction ms as [|[| |] ms IH]; intros u u' obs; simpl.
  - intros Heq; inversion Heq; subst. lia.
  - unfold until_to_bool.
    destruct (to_bool (until_parent_ u)) as [[[|] p]| |]; simpl; try discriminate.
    + destruct (flag_of_flag_ u) eqn:Hfof; simpl.
      * destruct (until_flag_ u); simpl; try discriminate.
        destruct (run fuel ms _) as [[obs1 u1]| |] eqn:Hrun; simpl; try discriminate.
        intros Heq; inversion Heq; subst. apply IH in Hrun. simpl in Hrun. lia.
      * destruct (deref p) as [[x p1]| |]; simpl; try discriminate.
        destruct (run fuel ms _) as [[obs1 u1]| |] eqn:Hrun; simpl; try discriminate.
        intros Heq; inversion Heq; subst. apply IH in Hrun. simpl in Hrun. lia.
    + destruct (run fuel ms _) as [[obs1 u1]| |] eqn:Hrun; simpl; try discriminate.
      intros Heq; inversion Heq; subst. apply IH in Hrun. simpl in Hrun.
      pose proof (first_valids_fresh ms).
      destruct (flag_of_flag_ u); simpl in *; lia.
  - unfold until_deref.
    destruct (deref (until_parent_ u)) as [[x p]| |]; simpl; try discriminate.
    destruct (run fuel ms _) as [[obs1 u1]| |] eqn:Hrun; simpl; try discriminate.
    intros Heq; inversion Heq; subst. apply IH in Hrun. simpl in Hrun. exact Hrun.
  - unfold until_incr.
    destruct (incr fuel (until_parent_ u)) as [p| |]; simpl; try discriminate.
    destruct (run fuel ms _) as [[obs1 u1]| |] eqn:Hrun; simpl; try discriminate.
    intros Heq; inversion Heq; subst. apply IH in Hrun. simpl in Hrun. lia.
Qed.

Lemma until_invokes_at_most_once_per_position_witness :
  0 <= calls (until_func_
                {| until_parent_ := from_range [1; 0]%Z 1 2;
                   until_func_ := {| cnt_fun := Z.eqb 0; calls := 2 |};
                   until_flag_ := Some false; flag_of_flag_ := true |})
  /\ calls (until_func_
              {| until_parent_ := from_range [1; 0]%Z 1 2;
                 until_func_ := {| cnt_fun := Z.eqb 0; calls := 2 |};
                 until_flag_ := Some false; flag_of_flag_ := true |})
     <= 0 + first_valids true [Valid; Valid; Current; Advance; Valid; Valid].
Proof.
  apply (@until_invokes_at_most_once_per_position Z _ _ 0
           [Valid; Valid; Current; Advance; Valid; Valid]
           (until (from [1; 0]%Z) {| cnt_fun := Z.eqb 0; calls := 0 |})
           _ [Validity true; Validity true; Value 1%Z; Advanced;
              Validity false; Validity false]).
  reflexivity.
Defined.

(** The elements of [l] up to and including the first that [p] accepts. *)
Fixpoint tested {A} (p : A -> bool) (l : list A) : nat :=
  match l with
  | [] => 0
  | x :: r => if p x then 1 else S (tested p r)
  end.

Lemma tested_from_first {A} (p : A -> bool) (l : list A) :
  tested p l + length (tl (from_first p l)) = length l.
Proof.
  induction l as [|x l IH]; simpl; [reflexivity|].
  destruct (p x); simpl; lia.
Qed.

Lemma tested_before_first {A} (p : A -> bool) (l : list A) :
  tested p l
  = length (before_first p l) + (if is_nil (from_first p l) then 0 else 1).
Proof.
  induction l as [|x l IH]; simpl; [reflexivity|].
  destruct (p x); simpl; [reflexivity | now rewrite IH].
Qed.

Lemma where_skip_counted `{Lawful T E} (fuel : nat) :
  forall gas (p : E) (c : counted T bool),
  wf p -> length (denote p) <= gas -> need p <= fuel ->
  exists w, where_skip gas fuel p c = Done w
            /\ wf (where_parent_ w)
            /\ denote (where_parent_ w) = from_first (cnt_fun c) (denote p)
            /\ need (where_parent_ w) <= need p
            /\ cnt_fun (where_func_ w) = cnt_fun c
            /\ calls (where_func_ w) = calls c + tested (cnt_fun c) (denote p).
Proof.
  induction gas as [|gas IH]; intros p c Hwf Hlen Hfuel.
  - destruct (denote p) as [|x r] eqn:Hd; [|simpl in Hlen; lia].
    simpl. destruct (to_bool_law _ Hwf) as (p1 & -> & Hwf1 & Hd1 & Hn1).
    rewrite Hd. simpl. eexists; split; [reflexivity|]. simpl.
    rewrite Hd1, Hd. repeat split; auto.
  - simpl. destruct (to_bool_law _ Hwf) as (p1 & -> & Hwf1 & Hd1 & Hn1).
    destruct (denote p) as [|x r] eqn:Hd; simpl.
    + eexists; split; [reflexivity|]. simpl. rewrite Hd1. repeat split; auto.
    + destruct (deref_law _ Hwf1 Hd1) as (p2 & Hp2). rewrite Hp2. simpl.
      destruct (deref_keep _ Hwf1 Hp2) as (Hwf2 & Hd2 & Hn2).
      destruct (cnt_fun c x) eqn:Hx; simpl.
      * eexists; split; [reflexivity|]. simpl.
        rewrite Hd2, Hd1. repeat split; auto; lia.
      * rewrite Hd1 in Hd2.
        assert (Hfuel2 : need p2 <= fuel) by lia.
        destruct (incr_law _ Hwf2 Hd2 Hfuel2) as (p3 & -> & Hwf3 & Hd3 & Hn3). simpl.
        destruct (IH p3 {| cnt_fun := cnt_fun c; calls := S (calls c) |} Hwf3)
          as (w & -> & Hwf' & Hd' & Hn' & Hf' & Hc');
          [rewrite Hd3; simpl in Hlen; lia | lia |].
        exists w. simpl in *. rewrite Hd', Hd3, Hf', Hc', Hd3.
        repeat split; auto; lia.
Qed.

Lemma where_counted_loop `{Lawful T E} (fuel : nat) :
  forall gas (w : where_enumerator E (counted T bool)) (acc : list T),
  wf (where_parent_ w) -> length (denote (where_parent_ w)) <= gas ->
  need (where_parent_ w) <= fuel ->
  exists w',
    to_vector_loop gas fuel w acc
    = Done (acc ++ keep_head (filter (cnt_fun (where_func_ w))) (denote (where_parent_ w)),
            w')
    /\ calls (where_func_ w')
       = calls (where_func_ w) + length (tl (denote (where_parent_ w))).
Proof.
  induction gas as [|gas IH]; intros [p c] acc Hwf Hlen Hfuel; simpl in *.
  - destruct (denote p) as [|x r] eqn:Hd; [|simpl in Hlen; lia].
    unfold where_to_bool. simpl.
    destruct (to_bool_law _ Hwf) as (p1 & -> & Hwf1 & Hd1 & Hn1).
    rewrite Hd. simpl. eexists; split; [now rewrite app_nil_r|]. simpl. lia.
  - unfold where_to_bool. simpl.
    destruct (to_bool_law _ Hwf) as (p1 & -> & Hwf1 & Hd1 & Hn1).
    destruct (denote p) as [|x r] eqn:Hd; simpl.
    + eexists; split; [now rewrite app_nil_r|]. simpl. lia.
    + unfold where_deref. simpl.
      destruct (deref_law _ Hwf1 Hd1) as (p2 & Hp2). rewrite Hp2. simpl.
      destruct (deref_keep _ Hwf1 Hp2) as (Hwf2 & Hd2 & Hn2). rewrite Hd1 in Hd2.
      unfold where_incr. simpl.
      assert (Hfuel2 : need p2 <= fuel) by lia.
      destruct (incr_law _ Hwf2 Hd2 Hfuel2) as (p3 & -> & Hwf3 & Hd3 & Hn3). simpl.
      pose proof (need_denote _ Hwf3) as Hnd.
      destruct (@where_skip_counted _ _ _ _ fuel fuel p3 c Hwf3)
        as (w2 & -> & Hwf4 & Hd4 & Hn4 & Hf4 & Hc4); [lia..|].
      cbn [bind].
      pose proof (from_first_length (cnt_fun c) (denote p3)) as Hlen4.
      destruct (IH w2 (acc ++ [x]) Hwf4) as (w' & -> & Hcalls);
        [rewrite Hd4, Hd3 in *; simpl in Hlen; lia | lia |].
      exists w'. rewrite Hd4, Hf4, keep_head_from_first, Hd3, <- app_assoc.
      split; [reflexivity|].
      rewrite Hcalls, Hc4, Hd4, Hd3.
      pose proof (tested_from_first (cnt_fun c) r). lia.
Qed.

(** X7: constructing and collecting [from(xs).where(p)] invokes the
    predicate exactly once on each element of [xs]: a counting wrapper of
    [p] ends with [|xs|] invocations, and the collection is the elements
    that satisfy [p]. *)
Theorem where_tests_each_element_once (T : Type) (xs : list T) (p : T -> bool)
    (fuel : nat) :
  length xs < fuel ->
  exists w',
    (w <- where_ fuel (from xs) {| cnt_fun := p; calls := 0 |} ;; to_vector fuel w)
    = Done (filter p xs, w')
    /\ calls (where_func_ w') = length xs.
Proof.
  intros Hfuel. destruct (from_law xs) as (Hwf & Hd & Hn).
  unfold where_.
  destruct (@where_skip_counted _ _ _ _ fuel fuel (from xs) {| cnt_fun := p; calls := 0 |} Hwf)
    as (w & -> & Hwf1 & Hd1 & Hn1 & Hf1 & Hc1); [rewrite Hd; lia | lia |].
  cbn [bind]. unfold to_vector.
  pose proof (from_first_length p xs) as Hlen.
  destruct (@where_counted_loop _ _ _ _ fuel fuel w [] Hwf1) as (w' & -> & Hcalls);
    [rewrite Hd1, Hd; simpl; lia | lia |].
  exists w'. rewrite Hd1, Hf1, Hd. simpl cnt_fun.
  rewrite keep_head_from_first. split; [reflexivity|].
  rewrite Hcalls, Hc1, Hd1, Hd. simpl.
  apply (tested_from_first p xs).
Qed.

Lemma where_tests_each_element_once_witness :
  exists w',
    (w <- where_ 7 (from [1; 2; 3; 4; 5; 6]%Z) {| cnt_fun := Z.even; calls := 0 |} ;;
     to_vector 7 w)
    = Done ([2; 4; 6]%Z, w')
    /\ calls (where_func_ w') = 6.
Proof.
  apply (@where_tests_each_element_once Z [1; 2; 3; 4; 5; 6]%Z Z.even 7). simpl; lia.
Defined.

Lemma until_counted_loop `{Lawful T E} (fuel : nat) :
  forall gas (e : E) (c : counted T bool) (fl : option bool) (acc : list T),
  wf e -> length (denote e) <= gas -> need e <= fuel ->
  exists u',
    to_vector_loop gas fuel
      {| until_parent_ := e; until_func_ := c; until_flag_ := fl;
         flag_of_flag_ := false |} acc
    = Done (acc ++ before_first (cnt_fun c) (denote e), u')
    /\ calls (until_func_ u') = calls c + tested (cnt_fun c) (denote e).
Proof.
  induction gas as [|gas IH]; intros e c fl acc Hwf Hlen Hfuel.
  - destruct (denote e) as [|x r] eqn:Hd; [|simpl in Hlen; lia].
    simpl. unfold until_to_bool. simpl.
    destruct (to_bool_law _ Hwf) as (e1 & -> & Hwf1 & Hd1 & Hn1).
    rewrite Hd. simpl. eexists; split; [now rewrite app_nil_r|]. simpl. lia.
  - simpl. unfold until_to_bool. simpl.
    destruct (to_bool_law _ Hwf) as (e1 & -> & Hwf1 & Hd1 & Hn1).
    destruct (denote e) as [|x r] eqn:Hd; simpl.
    + eexists; split; [now rewrite app_nil_r|]. simpl. lia.
    + destruct (deref_law _ Hwf1 Hd1) as (e2 & He2). rewrite He2. simpl.
      destruct (deref_keep _ Hwf1 He2) as (Hwf2 & Hd2 & Hn2). rewrite Hd1 in Hd2.
      destruct (cnt_fun c x) eqn:Hx; simpl.
      * eexists; split; [now rewrite app_nil_r|]. simpl. lia.
      * unfold until_deref. simpl.
        destruct (deref_law _ Hwf2 Hd2) as (e3 & He3). rewrite He3. simpl.
        destruct (deref_keep _ Hwf2 He3) as (Hwf3 & Hd3 & Hn3). rewrite Hd2 in Hd3.
        unfold until_incr. simpl.
        assert (Hfuel3 : need e3 <= fuel) by lia.
        destruct (incr_law _ Hwf3 Hd3 Hfuel3) as (e4 & -> & Hwf4 & Hd4 & Hn4). simpl.
        destruct (IH e4 {| cnt_fun := cnt_fun c; calls := S (calls c) |}
                    (Some true) (acc ++ [x]) Hwf4)
          as (u' & -> & Hcalls); [rewrite Hd4; simpl in Hlen; lia | lia |].
        exists u'. simpl in *. rewrite Hd4, <- app_assoc.
        split; [reflexivity|]. rewrite Hcalls, Hd4. lia.
Qed.

(** X8: collecting [from(xs).until(p)] invokes the predicate once on each
    element of the returned prefix and once on the element that stops the
    cursor, when there is one; it is never invoked on an element after
    that one. *)
Theorem until_tests_up_to_the_stop (T : Type) (xs : list T) (p : T -> bool)
    (fuel : nat) :
  length xs < fuel ->
  exists u',
    to_vector fuel (until (from xs) {| cnt_fun := p; calls := 0 |})
    = Done (before_first p xs, u')
    /\ calls (until_func_ u')
       = length (before_first p xs) + (if is_nil (from_first p xs) then 0 else 1).
Proof.
  intros Hfuel. destruct (from_law xs) as (Hwf & Hd & Hn).
  destruct (@until_counted_loop _ _ _ _ fuel fuel (from xs)
              {| cnt_fun := p; calls := 0 |} None [] Hwf)
    as (u' & Hu' & Hcalls); [rewrite Hd; lia | lia |].
  exists u'. rewrite Hd in *. simpl in *. split; [exact Hu'|].
  rewrite Hcalls. apply tested_before_first.
Qed.

Lemma until_tests_up_to_the_stop_witness :
  exists u',
    to_vector 7 (until (from [1; 2; 3; 0; 4; 5]%Z) {| cnt_fun := Z.eqb 0; calls := 0 |})
    = Done ([1; 2; 3]%Z, u')
    /\ calls (until_func_ u') = 4.
Proof.
  apply (@until_tests_up_to_the_stop Z [1; 2; 3; 0; 4; 5]%Z (Z.eqb 0) 7). simpl; lia.
Defined.

(** ** What collecting a decorator leaves of its upstream *)

Lemma take_loop_upstream `{Lawful T E} (fuel : nat) :
  forall gas (e : E) (n : Z) (acc : list T),
  wf e -> length (denote e) <= gas -> need e <= fuel ->
  exists t',
    to_vector_loop gas fuel {| take_parent_ := e; amount_ := n |} acc
    = Done (acc ++ firstn (Z.to_nat n) (denote e), t')
    /\ wf (take_parent_ t')
    /\ denote (take_parent_ t') = skipn (Z.to_nat n) (denote e)
    /\ need (take_parent_ t') <= need e
    /\ amount_ t' = (n - Z.of_nat (Nat.min (Z.to_nat n) (length (denote e))))%Z.
Proof.
  induction gas as [|gas IH]; intros e n acc Hwf Hlen Hfuel.
  - destruct (denote e) as [|x r] eqn:Hd; [|simpl in Hlen; lia].
    simpl. unfold take_to_bool. simpl.
    destruct (Z.ltb_spec 0 n) as [Hpos|Hneg].
    + destruct (to_bool_law _ Hwf) as (e1 & -> & Hwf1 & Hd1 & Hn1).
      rewrite Hd. simpl. eexists; split; [now rewrite firstn_nil, app_nil_r|].
      simpl. rewrite Hd1, Hd, skipn_nil. repeat split; auto. simpl. lia.
    + eexists; split; [now rewrite firstn_nil, app_nil_r|].
      simpl. rewrite Hd, skipn_nil. repeat split; auto. simpl. lia.
  - simpl. unfold take_to_bool. simpl.
    destruct (Z.ltb_spec 0 n) as [Hpos|Hneg].
    + destruct (to_bool_law _ Hwf) as (e1 & -> & Hwf1 & Hd1 & Hn1).
      destruct (denote e) as [|x r] eqn:Hd; simpl.
      * eexists; split; [now rewrite firstn_nil, app_nil_r|].
        simpl. rewrite Hd1, skipn_nil. repeat split; auto. lia.
      * unfold take_deref. simpl.
        destruct (deref_law _ Hwf1 Hd1) as (e2 & He2). rewrite He2. simpl.
        destruct (deref_keep _ Hwf1 He2) as (Hwf2 & Hd2 & Hn2). rewrite Hd1 in Hd2.
        unfold take_incr. simpl.
        assert (Hfuel2 : need e2 <= fuel) by lia.
        destruct (incr_law _ Hwf2 Hd2 Hfuel2) as (e3 & -> & Hwf3 & Hd3 & Hn3). simpl.
        destruct (Z.eqb_spec n INT_MIN) as [Hmin|_];
          [unfold INT_MIN in Hmin; lia|].
        cbn [bind].
        destruct (IH e3 (n - 1)%Z (acc ++ [x]) Hwf3)
          as (t' & -> & Hwf' & Hd' & Hn' & Ha');
          [rewrite Hd3; simpl in Hlen; lia | lia |].
        exists t'. rewrite Hd', Ha', Hd3, <- app_assoc.
        replace (Z.to_nat n) with (S (Z.to_nat (n - 1))) by lia.
        simpl. repeat split; auto; lia.
    + replace (Z.to_nat n) with 0 by lia. simpl.
      eexists; split; [now rewrite app_nil_r|]. simpl. repeat split; auto. lia.
Qed.

(** X9: collecting a take cursor consumes from its upstream exactly the
    elements it returns: when the upstream presents [l], [take(n)]
    collects the first [n] elements of [l] and leaves the upstream
    presenting the rest of [l], with [amount_] lowered by the number of
    elements returned. *)
Theorem take_leaves_the_rest_upstream (T E : Type) (I : Enumerator T E)
    (L : @Lawful T E I) (e : E) (n : Z) (fuel : nat) :
  wf e -> need e <= fuel ->
  exists t',
    to_vector fuel (take e n) = Done (firstn (Z.to_nat n) (denote e), t')
    /\ result_of (to_vector fuel (take_parent_ t'))
       = Some (skipn (Z.to_nat n) (denote e))
    /\ amount_ t' = (n - Z.of_nat (Nat.min (Z.to_nat n) (length (denote e))))%Z.
Proof.
  intros Hwf Hfuel. pose proof (need_denote _ Hwf) as Hnd.
  destruct (@take_loop_upstream T E I L fuel fuel e n [] Hwf)
    as (t' & Ht' & Hwf' & Hd' & Hn' & Ha'); [lia | lia |].
  assert (Hfuel' : need (take_parent_ t') <= fuel) by lia.
  destruct (to_vector_law (fuel := fuel) _ Hwf' Hfuel') as (e2 & He2 & _).
  exists t'. split; [exact Ht'|]. split; [|exact Ha'].
  rewrite He2. unfold result_of. now rewrite Hd'.
Qed.

Lemma take_leaves_the_rest_upstream_witness :
  exists t',
    to_vector 6 (take (from [1; 2; 3; 4; 5]%Z) 2)
    = Done (firstn 2 (denote (from [1; 2; 3; 4; 5]%Z)), t')
    /\ result_of (to_vector 6 (take_parent_ t'))
       = Some (skipn 2 (denote (from [1; 2; 3; 4; 5]%Z)))
    /\ amount_ t' = (2 - Z.of_nat (Nat.min 2 (length (denote (from [1; 2; 3; 4; 5]%Z)))))%Z.
Proof.
  apply (@take_leaves_the_rest_upstream Z _ _ _ (from [1; 2; 3; 4; 5]%Z) 2 6).
  - cbv. lia.
  - cbv. lia.
Defined.

Example take_in_chunks :
  (let r := from [1; 2; 3; 4; 5]%Z in
   '(a, t1) <- to_vector 6 (take r 2) ;;
   '(b, t2) <- to_vector 6 (take (take_parent_ t1) 2) ;;
   '(c, _) <- to_vector 6 (take (take_parent_ t2) 2) ;;
   Done (a, b, c))
  = Done ([1; 2]%Z, [3; 4]%Z, [5]%Z).
Proof. reflexivity. Qed.

(** X10: collecting a select, where or drop cursor exhausts its upstream:
    when the upstream presents [l], the collection is [map f l],
    [filter p l] or [l] without its first [k] elements, and after it the
    upstream converts to false (unlike the upstream of an until or of a
    take cursor). *)
Theorem collecting_exhausts_the_upstream (T V E : Type) (I : Enumerator T E)
    (L : @Lawful T E I) (e : E) (f : T -> V) (p : T -> bool) (k : Z) (fuel : nat) :
  wf e -> need e <= fuel ->
  (exists s', to_vector fuel (select e f) = Done (map f (denote e), s')
              /\ result_of (to_bool (select_parent_ s')) = Some false)
  /\ (exists w', (w <- where_ fuel e p ;; to_vector fuel w) = Done (filter p (denote e), w')
                 /\ result_of (to_bool (where_parent_ w')) = Some false)
  /\ (exists d', (d <- drop fuel e k ;; to_vector fuel d)
                 = Done (skipn (Z.to_nat k) (denote e), d')
                 /\ result_of (to_bool (drop_parent_ d')) = Some false).
Proof.
  intros Hwf Hfuel.
  assert (Hfalse : forall e0 : E, wf e0 -> denote e0 = [] ->
                                  result_of (to_bool e0) = Some false).
  { intros e0 Hwf0 Hd0. destruct (to_bool_law _ Hwf0) as (e1 & -> & _).
    now rewrite Hd0. }
  split; [|split].
  - destruct (select_ctor_law _ f Hwf) as (Hwf1 & Hd1 & Hn1).
    destruct (to_vector_law (fuel := fuel) _ Hwf1) as (s' & -> & Hwf' & Hd' & _);
      [rewrite Hn1; lia|].
    exists s'. split; [now rewrite Hd1|].
    destruct Hwf' as [Hwfp _]. apply Hfalse; [exact Hwfp|].
    pose proof (select_denote_is_nil s') as Hnil. simpl in Hd'. rewrite Hd' in Hnil.
    now destruct (denote (select_parent_ s')).
  - destruct (where_ctor_law (fuel := fuel) _ p Hwf Hfuel)
      as (w & -> & Hwf1 & Hd1 & Hn1 & _). cbn [bind].
    destruct (to_vector_law (fuel := fuel) _ Hwf1) as (w' & -> & Hwf' & Hd' & _);
      [lia|].
    exists w'. split; [now rewrite Hd1|].
    apply Hfalse; [exact Hwf'|].
    simpl in Hd'. unfold where_denote in Hd'.
    now destruct (denote (where_parent_ w')).
  - destruct (drop_ctor_law (fuel := fuel) _ k Hwf Hfuel)
      as (d & -> & Hwf1 & Hd1 & Hn1). cbn [bind].
    destruct (to_vector_law (fuel := fuel) _ Hwf1) as (d' & -> & Hwf' & Hd' & _);
      [lia|].
    exists d'. split; [now rewrite Hd1|].
    apply Hfalse; [exact Hwf' | exact Hd'].
Qed.

Lemma collecting_exhausts_the_upstream_witness :
  exists w',
    (w <- where_ 5 (from [1; 2; 3; 4]%Z) Z.even ;; to_vector 5 w)
    = Done (filter Z.even (denote (from [1; 2; 3; 4]%Z)), w')
    /\ result_of (to_bool (where_parent_ w')) = Some false.
Proof.
  destruct (@collecting_exhausts_the_upstream Z Z _ _ _ (from [1; 2; 3; 4]%Z)
              Z.succ Z.even 1 5) as (_ & Hw & _).
  - cbv. lia.
  - cbv. lia.
  - exact Hw.
Defined.

(** ** How the combinators compose *)

(** X11: [from(xs).drop(a).take(b)] collects the [b] elements of [xs]
    that follow its first [a] elements (fewer when [xs] ends before),
    whatever the signs of [a] and [b]: a count below zero counts as zero. *)
Theorem drop_take_is_a_page (T : Type) (xs : list T) (a b : Z) (fuel : nat) :
  length xs < fuel ->
  result_of (d <- drop fuel (from xs) a ;; to_vector fuel (take d b))
  = Some (firstn (Z.to_nat b) (skipn (Z.to_nat a) xs)).
Proof.
  intros Hfuel. destruct (from_law xs) as (Hwf & Hd & Hn).
  destruct (drop_ctor_law (fuel := fuel) _ a Hwf) as (d & -> & Hwf1 & Hd1 & Hn1); [lia|].
  cbn [bind].
  destruct (take_ctor_law _ b Hwf1) as (Hwf2 & Hd2 & Hn2).
  destruct (to_vector_law (fuel := fuel) _ Hwf2) as (t' & -> & _); [lia|].
  unfold result_of. now rewrite Hd2, Hd1, Hd.
Qed.

Lemma drop_take_is_a_page_witness :
  result_of (d <- drop 6 (from [1; 2; 3; 4; 5]%Z) 2 ;; to_vector 6 (take d 2))
  = Some [3; 4]%Z.
Proof.
  apply (@drop_take_is_a_page Z [1; 2; 3; 4; 5]%Z 2 2 6). simpl; lia.
Defined.

(** X12: two takes in a row collect as one take of the smaller count, and
    two drops in a row collect as one drop of the sum of the counts
    (counts below zero counting as zero). *)
Theorem take_take_and_drop_drop (T : Type) (xs : list T) (a b : Z) (fuel : nat) :
  length xs < fuel ->
  result_of (to_vector fuel (take (take (from xs) a) b))
  = Some (firstn (Nat.min (Z.to_nat a) (Z.to_nat b)) xs)
  /\ result_of (d1 <- drop fuel (from xs) a ;;
                d2 <- drop fuel d1 b ;;
                to_vector fuel d2)
     = Some (skipn (Z.to_nat a + Z.to_nat b) xs).
Proof.
  intros Hfuel. destruct (from_law xs) as (Hwf & Hd & Hn). split.
  - destruct (take_ctor_law _ a Hwf) as (Hwf1 & Hd1 & Hn1).
    destruct (take_ctor_law _ b Hwf1) as (Hwf2 & Hd2 & Hn2).
    destruct (to_vector_law (fuel := fuel) _ Hwf2) as (t' & -> & _);
      [rewrite Hn2, Hn1; lia|].
    unfold result_of. rewrite Hd2, Hd1, Hd, firstn_firstn.
    now rewrite Nat.min_comm.
  - destruct (drop_ctor_law (fuel := fuel) _ a Hwf) as (d1 & -> & Hwf1 & Hd1 & Hn1); [lia|].
    cbn [bind].
    destruct (drop_ctor_law (fuel := fuel) _ b Hwf1) as (d2 & -> & Hwf2 & Hd2 & Hn2); [lia|].
    cbn [bind].
    destruct (to_vector_law (fuel := fuel) _ Hwf2) as (d' & -> & _); [lia|].
    unfold result_of. rewrite Hd2, Hd1, Hd, skipn_skipn.
    now rewrite Nat.add_comm.
Qed.

Lemma take_take_and_drop_drop_witness :
  result_of (to_vector 6 (take (take (from [1; 2; 3; 4; 5]%Z) 4) 2)) = Some [1; 2]%Z.
Proof.
  apply (@take_take_and_drop_drop Z [1; 2; 3; 4; 5]%Z 4 2 6). simpl; lia.
Defined.

(** X13: for every count [k], what [from(xs).take(k)] collects followed by
    what [from(xs).drop(k)] collects is [xs]; and what [from(xs).until(p)]
    collects is a prefix of what [from(xs).where(not p)] collects. *)
Theorem take_and_drop_split (T : Type) (xs : list T) (k : Z) (p : T -> bool)
    (fuel : nat) :
  length xs < fuel ->
  (exists l1 l2,
      result_of (to_vector fuel (take (from xs) k)) = Some l1
      /\ result_of (d <- drop fuel (from xs) k ;; to_vector fuel d) = Some l2
      /\ l1 ++ l2 = xs)
  /\ (exists l1 l2 rest,
         result_of (to_vector fuel (until (from xs) p)) = Some l1
         /\ result_of (w <- where_ fuel (from xs) (fun x => negb (p x)) ;;
                       to_vector fuel w) = Some l2
         /\ l2 = l1 ++ rest).
Proof.
  intros Hfuel. destruct (from_law xs) as (Hwf & Hd & Hn). split.
  - destruct (take_ctor_law _ k Hwf) as (Hwf1 & Hd1 & Hn1).
    destruct (to_vector_law (fuel := fuel) _ Hwf1) as (t' & -> & _);
      [rewrite Hn1; lia|].
    destruct (drop_ctor_law (fuel := fuel) _ k Hwf) as (d & -> & Hwf2 & Hd2 & Hn2); [lia|].
    cbn [bind].
    destruct (to_vector_law (fuel := fuel) _ Hwf2) as (d' & -> & _); [lia|].
    eexists _, _. split; [reflexivity|]. split; [reflexivity|].
    rewrite Hd1, Hd2, Hd. apply firstn_skipn.
  - destruct (until_ctor_law _ p Hwf) as (Hwf1 & Hd1 & Hn1).
    destruct (to_vector_law (fuel := fuel) _ Hwf1) as (u' & -> & _);
      [rewrite Hn1; lia|].
    destruct (where_ctor_law (fuel := fuel) _ (fun x => negb (p x)) Hwf)
      as (w & -> & Hwf2 & Hd2 & Hn2 & _); [lia|].
    cbn [bind].
    destruct (to_vector_law (fuel := fuel) _ Hwf2) as (w' & -> & _); [lia|].
    exists (before_first p xs), (filter (fun x => negb (p x)) xs),
      (filter (fun x => negb (p x)) (from_first p xs)).
    unfold result_of. rewrite Hd1, Hd2, Hd. cbn [fn function_Pure].
    split; [reflexivity|]. split; [reflexivity|].
    rewrite <- (before_first_from_first p xs) at 1. rewrite filter_app. f_equal.
    apply forallb_filter_id. apply forallb_forall.
    intros x Hx. now rewrite (before_first_rejected p xs x Hx).
Qed.

Lemma take_and_drop_split_witness :
  exists l1 l2,
    result_of (to_vector 6 (take (from [1; 2; 3; 4; 5]%Z) 2)) = Some l1
    /\ result_of (d <- drop 6 (from [1; 2; 3; 4; 5]%Z) 2 ;; to_vector 6 d) = Some l2
    /\ l1 ++ l2 = [1; 2; 3; 4; 5]%Z.
Proof.
  destruct (@take_and_drop_split Z [1; 2; 3; 4; 5]%Z 2 Z.even 6) as (Hsplit & _).
  - simpl; lia.
  - exact Hsplit.
Defined.

(** X14: two selects in a row collect as one select of the composed
    function, and a select commutes with a take and with a drop. *)
Theorem select_fuses_and_commutes (T U V : Type) (xs : list T) (f : T -> U)
    (g : U -> V) (k : Z) (fuel : nat) :
  length xs < fuel ->
  result_of (to_vector fuel (select (select (from xs) f) g))
  = result_of (to_vector fuel (select (from xs) (fun x => g (f x))))
  /\ result_of (to_vector fuel (take (select (from xs) f) k))
     = result_of (to_vector fuel (select (take (from xs) k) f))
  /\ result_of (d <- drop fuel (select (from xs) f) k ;; to_vector fuel d)
     = result_of (d <- drop fuel (from xs) k ;; to_vector fuel (select d f))
  /\ result_of (to_vector fuel (select (from xs) (fun x => g (f x))))
     = Some (map g (map f xs)).
Proof.
  intros Hfuel. destruct (from_law xs) as (Hwf & Hd & Hn).
  destruct (select_ctor_law _ f Hwf) as (Hwf1 & Hd1 & Hn1).
  assert (Hgf : result_of (to_vector fuel (select (from xs) (fun x => g (f x))))
                = Some (map g (map f xs))).
  { destruct (select_ctor_law _ (fun x => g (f x)) Hwf) as (Hwf2 & Hd2 & Hn2).
    destruct (to_vector_law (fuel := fuel) _ Hwf2) as (s' & -> & _);
      [rewrite Hn2; lia|].
    unfold result_of. rewrite Hd2, Hd. cbn [fn function_Pure]. now rewrite map_map. }
  split; [|split; [|split; [|exact Hgf]]].
  - rewrite Hgf.
    destruct (select_ctor_law _ g Hwf1) as (Hwf2 & Hd2 & Hn2).
    destruct (to_vector_law (fuel := fuel) _ Hwf2) as (s' & -> & _);
      [rewrite Hn2, Hn1; lia|].
    unfold result_of. now rewrite Hd2, Hd1, Hd.
  - destruct (take_ctor_law _ k Hwf1) as (Hwf2 & Hd2 & Hn2).
    destruct (to_vector_law (fuel := fuel) _ Hwf2) as (t' & -> & _);
      [rewrite Hn2, Hn1; lia|].
    destruct (take_ctor_law _ k Hwf) as (Hwf3 & Hd3 & Hn3).
    destruct (select_ctor_law _ f Hwf3) as (Hwf4 & Hd4 & Hn4).
    destruct (to_vector_law (fuel := fuel) _ Hwf4) as (s' & -> & _);
      [rewrite Hn4, Hn3; lia|].
    unfold result_of. rewrite Hd2, Hd1, Hd4, Hd3, Hd. cbn [fn function_Pure].
    now rewrite firstn_map.
  - destruct (drop_ctor_law (fuel := fuel) _ k Hwf1) as (d & -> & Hwf2 & Hd2 & Hn2);
      [rewrite Hn1; lia|].
    cbn [bind].
    destruct (to_vector_law (fuel := fuel) _ Hwf2) as (d' & -> & _);
      [rewrite Hn1 in Hn2; lia|].
    destruct (drop_ctor_law (fuel := fuel) _ k Hwf) as (d0 & -> & Hwf3 & Hd3 & Hn3); [lia|].
    cbn [bind].
    destruct (select_ctor_law _ f Hwf3) as (Hwf4 & Hd4 & Hn4).
    destruct (to_vector_law (fuel := fuel) _ Hwf4) as (s' & -> & _);
      [rewrite Hn4; lia|].
    unfold result_of. rewrite Hd2, Hd1, Hd4, Hd3, Hd. cbn [fn function_Pure].
    now rewrite skipn_map.
Qed.

Lemma select_fuses_and_commutes_witness :
  result_of (to_vector 4 (select (select (from [1; 2; 3]%Z) Z.succ) Z.even))
  = result_of (to_vector 4 (select (from [1; 2; 3]%Z) (fun x => Z.even (Z.succ x)))).
Proof.
  apply (@select_fuses_and_commutes Z Z bool [1; 2; 3]%Z Z.succ Z.even 1 4). simpl; lia.
Defined.

(** X15: [from(xs).where(p).select(f).take(k)] collects the images under
    [f] of the first [k] elements of [xs] that satisfy [p]. *)
Theorem where_select_take_pipeline (T U : Type) (xs : list T) (p : T -> bool)
    (f : T -> U) (k : Z) (fuel : nat) :
  length xs < fuel ->
  result_of (w <- where_ fuel (from xs) p ;; to_vector fuel (take (select w f) k))
  = Some (map f (firstn (Z.to_nat k) (filter p xs))).
Proof.
  intros Hfuel. destruct (from_law xs) as (Hwf & Hd & Hn).
  destruct (where_ctor_law (fuel := fuel) _ p Hwf) as (w & -> & Hwf1 & Hd1 & Hn1 & _);
    [lia|].
  cbn [bind].
  destruct (select_ctor_law _ f Hwf1) as (Hwf2 & Hd2 & Hn2).
  destruct (take_ctor_law _ k Hwf2) as (Hwf3 & Hd3 & Hn3).
  destruct (to_vector_law (fuel := fuel) _ Hwf3) as (t' & -> & _);
    [rewrite Hn3, Hn2; lia|].
  unfold result_of. rewrite Hd3, Hd2, Hd1, Hd. cbn [fn function_Pure].
  now rewrite firstn_map.
Qed.

Lemma where_select_take_pipeline_witness :
  result_of (w <- where_ 7 (from [1; 2; 3; 4; 5; 6]%Z) Z.even ;;
             to_vector 7 (take (select w (fun x => x * 10)%Z) 2))
  = Some [20; 40]%Z.
Proof.
  apply (@where_select_take_pipeline Z Z [1; 2; 3; 4; 5; 6]%Z Z.even
           (fun x => x * 10)%Z 2 7).
  simpl; lia.
Defined.

(** ** The equality variants *)

(** X16: when [equal] decides equality on the element type,
    [from(xs).until_eq(v)] collects the elements of [xs] before the first
    occurrence of [v], and [from(xs).where_neq(v)] collects the elements
    of [xs] other than [v], in their order; neither collection contains
    [v]. *)
Theorem until_eq_and_where_neq (T : Type) (Q : Equality T) (xs : list T) (v : T)
    (fuel : nat) :
  (forall a b, equal a b = true <-> a = b) ->
  length xs < fuel ->
  (exists l rest,
      result_of (to_vector fuel (until_eq (from xs) v)) = Some l
      /\ xs = l ++ rest /\ ~ In v l /\ (rest = [] \/ exists r, rest = v :: r))
  /\ (exists l,
         result_of (w <- where_neq fuel (from xs) v ;; to_vector fuel w) = Some l
         /\ l = filter (fun x => negb (equal x v)) xs
         /\ ~ In v l
         /\ (forall x, In x l <-> In x xs /\ x <> v)).
Proof.
  intros Heq Hfuel. destruct (from_law xs) as (Hwf & Hd & Hn).
  set (p := fun elem : T => equal elem v).
  split.
  - destruct (until_ctor_law _ p Hwf) as (Hwf1 & Hd1 & Hn1).
    destruct (to_vector_law (fuel := fuel) (until (from xs) p) Hwf1) as (u' & Hu' & _);
      [rewrite Hn1; lia|].
    exists (before_first p xs), (from_first p xs).
    split; [|split; [|split]].
    + unfold until_eq. fold p. rewrite Hu'. unfold result_of. now rewrite Hd1, Hd.
    + symmetry. apply before_first_from_first.
    + intros Hin. apply before_first_rejected in Hin. unfold p in Hin.
      assert (Hvv : equal v v = true) by now apply Heq. congruence.
    + pose proof (head_accepted_from_first p xs) as Hh.
      destruct (from_first p xs) as [|y r]; [now left|].
      right. exists r. simpl in Hh. apply Heq in Hh. now subst y.
  - set (q := fun elem : T => negb (equal elem v)).
    destruct (where_ctor_law (fuel := fuel) _ q Hwf) as (w & Hw & Hwf1 & Hd1 & Hn1 & _);
      [lia|].
    destruct (to_vector_law (fuel := fuel) w Hwf1) as (w' & Hw' & _); [lia|].
    exists (filter q xs). split; [|split; [reflexivity|split]].
    + unfold where_neq. fold q. rewrite Hw. cbn [bind]. rewrite Hw'.
      unfold result_of. now rewrite Hd1, Hd.
    + intros Hin. apply filter_In in Hin as [_ Hq]. unfold q in Hq.
      assert (Hvv : equal v v = true) by now apply Heq.
      rewrite Hvv in Hq. discriminate.
    + intros x. rewrite filter_In. unfold q. split; intros [Hin Hx]; split; auto.
      * intros ->. assert (Hvv : equal v v = true) by now apply Heq.
        rewrite Hvv in Hx. discriminate.
      * destruct (equal x v) eqn:Hxv; [|reflexivity].
        apply Heq in Hxv. contradiction.
Qed.

Lemma until_eq_and_where_neq_witness :
  exists l,
    result_of (w <- where_neq 5 (from [1; 0; 2; 0]%Z) 0%Z ;; to_vector 5 w) = Some l
    /\ l = filter (fun x => negb (equal x 0%Z)) [1; 0; 2; 0]%Z
    /\ ~ In 0%Z l
    /\ (forall x, In x l <-> In x [1; 0; 2; 0]%Z /\ x <> 0%Z).
Proof.
  destruct (@until_eq_and_where_neq Z _ [1; 0; 2; 0]%Z 0%Z 5) as (_ & Hw).
  - intros a b. apply Z.eqb_eq.
  - simpl; lia.
  - exact Hw.
Defined.

(** ** Select under a drop *)

Lemma drop_loop_select `{Lawful U E} `{Callable F U T} (fuel : nat) (k : Z) :
  forall gas (i : Z) (p : E) (v : option T) (f : F),
  wf p -> length (denote p) <= gas -> need p <= fuel ->
  exists p',
    drop_loop gas fuel k i
      {| select_parent_ := p; value_ := v; select_func_ := f; select_flag_ := true |}
    = Done {| select_parent_ := p'; value_ := v; select_func_ := f;
              select_flag_ := true |}
    /\ wf p' /\ denote p' = skipn (Z.to_nat (k - i)) (denote p) /\ need p' <= need p.
Proof.
  induction gas as [|gas IH]; intros i p v f Hwf Hlen Hfuel.
  - destruct (denote p) as [|x r] eqn:Hd; [|simpl in Hlen; lia].
    simpl. destruct (Z.ltb_spec i k) as [Hlt|Hge].
    + unfold select_to_bool. simpl.
      destruct (to_bool_law _ Hwf) as (p1 & -> & Hwf1 & Hd1 & Hn1).
      rewrite Hd. simpl. exists p1. rewrite Hd1, Hd, skipn_nil. auto.
    + exists p. replace (Z.to_nat (k - i)) with 0 by lia. rewrite Hd. auto.
  - simpl. destruct (Z.ltb_spec i k) as [Hlt|Hge].
    + unfold select_to_bool. simpl.
      destruct (to_bool_law _ Hwf) as (p1 & -> & Hwf1 & Hd1 & Hn1).
      destruct (denote p) as [|x r] eqn:Hd; simpl.
      * exists p1. rewrite Hd1, skipn_nil. auto.
      * unfold select_incr. simpl.
        assert (Hfuel1 : need p1 <= fuel) by lia.
        destruct (incr_law _ Hwf1 Hd1 Hfuel1) as (p2 & -> & Hwf2 & Hd2 & Hn2). simpl.
        destruct (IH (i + 1)%Z p2 v f Hwf2) as (p' & -> & Hwf' & Hd' & Hn');
          [rewrite Hd2; simpl in Hlen; lia | lia |].
        exists p'. split; [reflexivity|]. split; [exact Hwf'|]. split; [|lia].
        rewrite Hd', Hd2.
        replace (Z.to_nat (k - i)) with (S (Z.to_nat (k - (i + 1)))) by lia.
        reflexivity.
    + exists p. replace (Z.to_nat (k - i)) with 0 by lia. auto.
Qed.

(** X17: [from(xs).select(f).drop(k)] never applies [f] to the elements it
    skips: constructing and collecting it returns the images of the
    elements of [xs] after the first [k], and a counting wrapper of [f]
    ends with as many invocations as elements returned. *)
Theorem select_drop_skips_unevaluated (U T : Type) (xs : list U) (f : U -> T) (k : Z)
    (fuel : nat) :
  length xs < fuel ->
  exists d',
    (d <- drop fuel (select (from xs) {| cnt_fun := f; calls := 0 |}) k ;;
     to_vector fuel d)
    = Done (map f (skipn (Z.to_nat k) xs), d')
    /\ calls (select_func_ (drop_parent_ d')) = length (skipn (Z.to_nat k) xs).
Proof.
  intros Hfuel. destruct (from_law xs) as (Hwf & Hd & Hn).
  unfold drop, select.
  destruct (@drop_loop_select _ _ _ _ _ T _ fuel k fuel 0%Z (from xs) None
              {| cnt_fun := f; calls := 0 |} Hwf)
    as (p' & -> & Hwf' & Hd' & Hn'); [rewrite Hd; lia | lia |].
  cbn [bind]. unfold to_vector. rewrite drop_to_vector_loop_forward.
  pose proof (need_denote _ Hwf') as Hnd.
  destruct (@select_counted_loop _ _ _ _ T fuel fuel p' {| cnt_fun := f; calls := 0 |}
              None [] Hwf')
    as (s' & -> & Hcalls & _); [lia | lia |].
  cbn [bind]. eexists; split.
  - rewrite Hd', Hd, Z.sub_0_r. reflexivity.
  - simpl. rewrite Hcalls, Hd', Hd, Z.sub_0_r. reflexivity.
Qed.

Lemma select_drop_skips_unevaluated_witness :
  exists d',
    (d <- drop 6 (select (from [1; 2; 3; 4; 5]%Z)
                    {| cnt_fun := fun x => (x * 10)%Z; calls := 0 |}) 3 ;;
     to_vector 6 d)
    = Done (map (fun x => (x * 10)%Z) (skipn 3 [1; 2; 3; 4; 5]%Z), d')
    /\ calls (select_func_ (drop_parent_ d')) = length (skipn 3 [1; 2; 3; 4; 5]%Z).
Proof.
  apply (@select_drop_skips_unevaluated Z Z [1; 2; 3; 4; 5]%Z (fun x => (x * 10)%Z) 3 6).
  simpl; lia.
Defined.

(** ** The where constructor is eager *)

(** X18: the constructor of [from(xs).where(p)] already runs the upstream
    and the predicate: it returns with the predicate invoked once on each
    element of [xs] up to and including the first that satisfies [p], and
    with the upstream moved to that element (to its end when there is
    none), before anything is pulled from the where cursor. *)
Theorem where_constructor_is_eager (T : Type) (xs : list T) (p : T -> bool)
    (fuel : nat) :
  length xs < fuel ->
  exists w,
    where_ fuel (from xs) {| cnt_fun := p; calls := 0 |} = Done w
    /\ calls (where_func_ w)
       = length (before_first p xs) + (if is_nil (from_first p xs) then 0 else 1)
    /\ result_of (to_vector fuel (where_parent_ w)) = Some (from_first p xs).
Proof.
  intros Hfuel. destruct (from_law xs) as (Hwf & Hd & Hn).
  unfold where_.
  destruct (@where_skip_counted _ _ _ _ fuel fuel (from xs) {| cnt_fun := p; calls := 0 |} Hwf)
    as (w & Hw & Hwf1 & Hd1 & Hn1 & Hf1 & Hc1); [rewrite Hd; lia | lia |].
  exists w. split; [exact Hw|]. split.
  - rewrite Hc1, Hd. simpl. apply tested_before_first.
  - assert (Hfuel1 : need (where_parent_ w) <= fuel) by lia.
    destruct (to_vector_law (fuel := fuel) _ Hwf1 Hfuel1) as (e' & -> & _).
    unfold result_of. now rewrite Hd1, Hd.
Qed.

Lemma where_constructor_is_eager_witness :
  exists w,
    where_ 6 (from [1; 3; 4; 5; 6]%Z) {| cnt_fun := Z.even; calls := 0 |} = Done w
    /\ calls (where_func_ w)
       = length (before_first Z.even [1; 3; 4; 5; 6]%Z)
         + (if is_nil (from_first Z.even [1; 3; 4; 5; 6]%Z) then 0 else 1)
    /\ result_of (to_vector 6 (where_parent_ w)) = Some (from_first Z.even [1; 3; 4; 5; 6]%Z).
Proof.
  apply (@where_constructor_is_eager Z [1; 3; 4; 5; 6]%Z Z.even 6). simpl; lia.
Defined.
